(** * exp_lut_1over128_gen: the exp(-k/128) lookup-table generator

    A shallow embedding of [exp_lut_1over128_gen.cpp] and the properties of
    the table file it writes.

    - C++ [double] and [float] are IEEE-754 binary64 and binary32, modelled
      with the Standard Library's executable specification [spec_float]
      ([SFmul], [SFdiv], [binary_round], ...).
    - [std::exp] belongs to the host's math library, not to this program:
      every definition takes it as a parameter [exp : double -> double].
      What the table holds depends on how accurate that function is; the
      properties of the values are proved for every [exp] that returns 1
      at zero and stays within three units in the last place of the
      correctly rounded result on the 1024 other samples
      ([ExpRef.accurate_on_samples]), which every [exp] of relative error
      at most 2^-52 does ([contract_accurate]).
    - [std::memcpy] works on object representations: lists of bytes in the
      platform's byte order.  A [float] object ([IEEE.binary32]) keeps the
      sign and the payload of a NaN, which its value does not have.
    - [std::ofstream], [std::cout] and [std::cerr] are modelled by a state
      monad over a [World] (file system, console streams, system-call
      trace). *)

From Stdlib Require Import Reals Lra.
From Stdlib Require Import ZArith List Bool Lia String Ascii.
From Stdlib Require Import Floats.FloatClass Floats.SpecFloat.
Import ListNotations.
Local Open Scope Z_scope.

(** ** IEEE-754 formats of the C++ arithmetic types *)

Module IEEE.

(** [double] is binary64, [float] is binary32. *)
Definition double := spec_float.
Definition float := spec_float.

Definition prec64 := 53.
Definition emax64 := 1024.
Definition prec32 := 24.
Definition emax32 := 128.

Definition valid_double (d : double) : bool := valid_binary prec64 emax64 d.
Definition valid_float (f : float) : bool := valid_binary prec32 emax32 f.

(** Integral-to-floating conversion [int -> double] (exact for every
    32-bit [int]). *)
Definition double_of_int (z : Z) : double :=
  binary_normalize prec64 emax64 z 0 false.

Definition double_mul : double -> double -> double := SFmul prec64 emax64.
Definition double_div : double -> double -> double := SFdiv prec64 emax64.

(** [static_cast<float>(d)]: narrowing under round-to-nearest-even. *)
Definition float_of_double (d : double) : float :=
  match d with
  | S754_finite s m e => binary_round prec32 emax32 s m e
  | _ => d
  end.

(** The binary32 interchange encoding: sign (1 bit), biased exponent
    (8 bits), trailing significand (23 bits). *)
Definition join_bits32 (s : bool) (e m : Z) : Z :=
  (Z.b2z s * 2 ^ 8 + e) * 2 ^ 23 + m.

(** The encoding of a value.  A NaN of [spec_float] has neither sign nor
    payload: as a value it stands for the default quiet NaN.  The NaNs
    that an object may hold are those of [binary32] below. *)

Definition bits_of_b32 (f : float) : Z :=
  match f with
  | S754_zero s => join_bits32 s 0 0
  | S754_infinity s => join_bits32 s 255 0
  | S754_nan => join_bits32 false 255 (2 ^ 22)
  | S754_finite s m e =>
      if 2 ^ 23 <=? Zpos m
      then join_bits32 s (e + 150) (Zpos m - 2 ^ 23)
      else join_bits32 s 0 (Zpos m)
  end.

Definition b32_of_bits (u : Z) : float :=
  let s := (u / 2 ^ 31) mod 2 =? 1 in
  let e := (u / 2 ^ 23) mod 2 ^ 8 in
  let m := u mod 2 ^ 23 in
  if e =? 0 then
    match m with
    | Zpos p => S754_finite s p (-149)
    | _ => S754_zero s
    end
  else if e =? 255 then
    if m =? 0 then S754_infinity s else S754_nan
  else
    match m + 2 ^ 23 with
    | Zpos p => S754_finite s p (e - 150)
    | _ => S754_nan
    end.

Definition is_nan_bits32 (u : Z) : bool :=
  ((u / 2 ^ 23) mod 2 ^ 8 =? 255) && negb (u mod 2 ^ 23 =? 0).

(** Structural equality on [spec_float] (unlike [SFeqb] it separates the
    two zeros and equates NaN with itself). *)
Definition SF_same (a b : spec_float) : bool :=
  match a, b with
  | S754_zero s, S754_zero t => Bool.eqb s t
  | S754_infinity s, S754_infinity t => Bool.eqb s t
  | S754_nan, S754_nan => true
  | S754_finite s m e, S754_finite t n f =>
      Bool.eqb s t && Pos.eqb m n && Z.eqb e f
  | _, _ => false
  end.

(** The real number a floating-point value denotes (0 for the values
    that denote none). *)
Definition SF2R (f : spec_float) : R :=
  match f with
  | S754_finite s m e => (IZR (if s then Zneg m else Zpos m) * powerRZ 2 e)%R
  | _ => 0%R
  end.

(** A significand and exponent in the canonical form of binary32. *)
Definition canonical32 (m e : Z) : Prop :=
  0 < m /\ fexp prec32 emax32 (Zdigits2 m + e) = e.

Definition double_leb : double -> double -> bool := SFleb.
Definition float_ltb : float -> float -> bool := SFltb.

(** A [float] object, as a register or four bytes of memory hold it.  The
    arithmetic sees its value; a copy of its bytes also sees the sign
    and the payload (the non-zero trailing significand) of a NaN, of
    which there are 2^24 - 2. *)
Inductive binary32 :=
| B32_zero (s : bool)
| B32_infinity (s : bool)
| B32_nan (s : bool) (payload : positive)
| B32_finite (s : bool) (m : positive) (e : Z).

Definition valid_binary32 (x : binary32) : bool :=
  match x with
  | B32_zero _ | B32_infinity _ => true
  | B32_nan _ payload => Zpos payload <? 2 ^ 23
  | B32_finite s m e => valid_float (S754_finite s m e)
  end.

(** The value an object holds. *)
Definition value_of (x : binary32) : float :=
  match x with
  | B32_zero s => S754_zero s
  | B32_infinity s => S754_infinity s
  | B32_nan _ _ => S754_nan
  | B32_finite s m e => S754_finite s m e
  end.

(** The object that holds a value; the NaN value is held as the default
    quiet NaN (sign clear, payload 2^22).  Wherever a value stands for
    an object, this is the object meant. *)
Definition object_of (v : spec_float) : binary32 :=
  match v with
  | S754_zero s => B32_zero s
  | S754_infinity s => B32_infinity s
  | S754_nan => B32_nan false 4194304
  | S754_finite s m e => B32_finite s m e
  end.

Coercion object_of : spec_float >-> binary32.

(** The three fields of the encoding of an object. *)
Definition sign_bit (x : binary32) : bool :=
  match x with
  | B32_zero s | B32_infinity s | B32_nan s _ | B32_finite s _ _ => s
  end.

Definition biased_exponent (x : binary32) : Z :=
  match x with
  | B32_zero _ => 0
  | B32_infinity _ | B32_nan _ _ => 255
  | B32_finite _ m e => if 2 ^ 23 <=? Zpos m then e + 150 else 0
  end.

Definition trailing_significand (x : binary32) : Z :=
  match x with
  | B32_zero _ | B32_infinity _ => 0
  | B32_nan _ payload => Zpos payload
  | B32_finite _ m _ => if 2 ^ 23 <=? Zpos m then Zpos m - 2 ^ 23 else Zpos m
  end.

(** The 32 bits of an object: bit 31 is the sign, bits 30..23 the biased
    exponent, bits 22..0 the trailing significand. *)
Definition bits_of_binary32 (x : binary32) : Z :=
  join_bits32 (sign_bit x) (biased_exponent x) (trailing_significand x).

Definition binary32_of_bits (u : Z) : binary32 :=
  let s := (u / 2 ^ 31) mod 2 =? 1 in
  let e := (u / 2 ^ 23) mod 2 ^ 8 in
  let m := u mod 2 ^ 23 in
  if e =? 0 then
    match m with
    | Zpos p => B32_finite s p (-149)
    | _ => B32_zero s
    end
  else if e =? 255 then
    match m with
    | Zpos p => B32_nan s p
    | _ => B32_infinity s
    end
  else
    match m + 2 ^ 23 with
    | Zpos p => B32_finite s p (e - 150)
    | _ => B32_nan false 4194304
    end.

End IEEE.

(** ** Object representations and [memcpy] *)

Module Mem.

Inductive byte_order := LittleEndian | BigEndian.

(** The [n] low-order bytes of [u], least significant first. *)
Fixpoint le_split (n : nat) (u : Z) : list Z :=
  match n with
  | O => []
  | S n' => u mod 256 :: le_split n' (u / 256)
  end.

Definition le_bytes_of_u32 (u : Z) : list Z := le_split 4 u.

Fixpoint u32_of_le_bytes (bs : list Z) : Z :=
  match bs with
  | [] => 0
  | b :: rest => b + 256 * u32_of_le_bytes rest
  end.

(** The four bytes a 32-bit scalar occupies in memory, lowest address
    first. *)
Definition bytes_of_u32 (bo : byte_order) (u : Z) : list Z :=
  match bo with
  | LittleEndian => le_bytes_of_u32 u
  | BigEndian => rev (le_bytes_of_u32 u)
  end.

Definition u32_of_bytes (bo : byte_order) (bs : list Z) : Z :=
  match bo with
  | LittleEndian => u32_of_le_bytes bs
  | BigEndian => u32_of_le_bytes (rev bs)
  end.

(** Object representation of a [float]: the four bytes of its 32 bits,
    NaN sign and payload included. *)
Definition bytes_of_float (bo : byte_order) (v : IEEE.binary32) : list Z :=
  bytes_of_u32 bo (IEEE.bits_of_binary32 v).

(** [std::memcpy(dst, src, n)] on the bytes of two objects: the first [n]
    bytes of [dst] are replaced by those of [src]. *)
Definition memcpy (dst src : list Z) (n : nat) : list Z :=
  firstn n src ++ skipn n dst.

End Mem.

(** ** Output streams *)

Module Stream.

Local Open Scope string_scope.

Definition LF : ascii := "010"%char.
Definition endl_str : string := String LF EmptyString.

Inductive basefield := Dec | Hex | Oct.

Definition radix (b : basefield) : Z :=
  match b with Dec => 10 | Hex => 16 | Oct => 8 end.

(** Digit characters of [std::num_put] without [uppercase]. *)
Definition digit_char (d : Z) : ascii :=
  match d with
  | 0 => "0" | 1 => "1" | 2 => "2" | 3 => "3" | 4 => "4"
  | 5 => "5" | 6 => "6" | 7 => "7" | 8 => "8" | 9 => "9"
  | 10 => "a" | 11 => "b" | 12 => "c" | 13 => "d" | 14 => "e"
  | _ => "f"
  end%char.

(** Digits of [u] in radix [b], most significant first, at least one
    digit.  A [uint32_t] has at most 11 digits (octal), at most 8 in
    hexadecimal; [fuel] bounds the number of digits produced. *)
Fixpoint digits_aux (fuel : nat) (b u : Z) (acc : string) : string :=
  match fuel with
  | O => acc
  | S fuel' =>
      let acc' := String (digit_char (u mod b)) acc in
      if (u / b =? 0)%Z then acc' else digits_aux fuel' b (u / b) acc'
  end.

Definition digits_of_u32 (b : basefield) (u : Z) : string :=
  digits_aux 11 (radix b) u EmptyString.

Fixpoint repeat_char (c : ascii) (n : nat) : string :=
  match n with
  | O => EmptyString
  | S n' => String c (repeat_char c n')
  end.

(** Padding to the field width; the default adjustment is [right], so
    fill characters go in front. *)
Definition pad (fill : ascii) (width : nat) (s : string) : string :=
  repeat_char fill (width - String.length s) ++ s.

(** The part of a [std::ofstream] the program uses: its path, state
    bits, formatting state and the characters not yet flushed. *)
Record ofstream := mk_ofstream {
  o_path : string;
  o_open : bool;
  o_fail : bool;
  o_base : basefield;
  o_fill : ascii;
  o_width : nat;
  o_buf : string
}.

(** [operator!]. *)
Definition ofstream_not (s : ofstream) : bool := o_fail s.

(** [<< std::hex] *)
Definition put_hex (s : ofstream) : ofstream :=
  mk_ofstream (o_path s) (o_open s) (o_fail s) Hex (o_fill s) (o_width s) (o_buf s).

(** [<< std::setfill(c)] *)
Definition put_setfill (c : ascii) (s : ofstream) : ofstream :=
  mk_ofstream (o_path s) (o_open s) (o_fail s) (o_base s) c (o_width s) (o_buf s).

(** [<< std::setw(n)] *)
Definition put_setw (n : nat) (s : ofstream) : ofstream :=
  mk_ofstream (o_path s) (o_open s) (o_fail s) (o_base s) (o_fill s) n (o_buf s).

(** Formatted insertion of already converted characters: pad to the
    width, append, reset the width to 0.  A stream in a failed state
    inserts nothing. *)
Definition insert (txt : string) (s : ofstream) : ofstream :=
  if o_fail s then s
  else mk_ofstream (o_path s) (o_open s) (o_fail s) (o_base s) (o_fill s) 0
         (o_buf s ++ pad (o_fill s) (o_width s) txt).

(** [<< u] for [uint32_t u] *)
Definition put_u32 (u : Z) (s : ofstream) : ofstream :=
  insert (digits_of_u32 (o_base s) u) s.

(** [<< "..."] *)
Definition put_str (txt : string) (s : ofstream) : ofstream :=
  insert txt s.

(** The stream as the loop finds it: good, hexadecimal, filled with
    zeros, no pending width. *)
Definition ready (ofs : ofstream) : Prop :=
  o_fail ofs = false /\ o_base ofs = Hex /\ o_fill ofs = "0"%char /\ o_width ofs = 0%nat.

Definition with_buf (ofs : ofstream) (buf : string) : ofstream :=
  mk_ofstream (o_path ofs) (o_open ofs) false Hex "0"%char 0 buf.

(** Reading a line of hexadecimal digits back (used to state what the
    file's consumer sees). *)
Definition hex_value (c : ascii) : option Z :=
  let n := Z.of_nat (nat_of_ascii c) in
  if ((48 <=? n) && (n <=? 57))%Z then Some (n - 48)
  else if ((97 <=? n) && (n <=? 102))%Z then Some (n - 87)
  else None.

Fixpoint parse_hex_aux (s : string) (acc : Z) : option Z :=
  match s with
  | EmptyString => Some acc
  | String c rest =>
      match hex_value c with
      | Some d => parse_hex_aux rest (16 * acc + d)
      | None => None
      end
  end.

Definition parse_hex (s : string) : option Z :=
  match s with
  | EmptyString => None
  | _ => parse_hex_aux s 0
  end.

Definition is_lower_hex (c : ascii) : bool :=
  match hex_value c with Some _ => true | None => false end.

Fixpoint string_forallb (p : ascii -> bool) (s : string) : bool :=
  match s with
  | EmptyString => true
  | String c rest => p c && string_forallb p rest
  end.

End Stream.

(** ** The process environment *)

Module Env.

Import Stream.
Local Open Scope string_scope.

(** What the operating system sees of the process. *)
Inductive event :=
| EvOpen (path : string)              (* create or truncate, for writing *)
| EvOpenFailed (path : string)
| EvWrite (path : string) (data : string)
| EvClose (path : string)
| EvStdout (data : string)
| EvStderr (data : string).

Record World := mk_World {
  fs : string -> option string;    (* contents of the files that exist *)
  writable : string -> bool;       (* can this path be opened for writing *)
  cout : string;
  cerr : string;
  trace : list event
}.

Definition fs_set (f : string -> option string) (p : string) (c : string)
  : string -> option string :=
  fun q => if String.eqb q p then Some c else f q.

(** State monad over the world. *)
Definition M (A : Type) : Type := World -> A * World.

Definition ret {A} (a : A) : M A := fun w => (a, w).

Definition bind {A B} (c : M A) (k : A -> M B) : M B :=
  fun w => let (a, w') := c w in k a w'.

(** [std::ofstream ofs(path)]: opens for output, truncating the file;
    on failure the stream is left with [failbit] set. *)
Definition ofstream_ctor (path : string) : M ofstream :=
  fun w =>
    if writable w path then
      (mk_ofstream path true false Dec " "%char 0 EmptyString,
       mk_World (fs_set (fs w) path EmptyString) (writable w) (cout w) (cerr w)
         (trace w ++ [EvOpen path]))
    else
      (mk_ofstream path false true Dec " "%char 0 EmptyString,
       mk_World (fs w) (writable w) (cout w) (cerr w)
         (trace w ++ [EvOpenFailed path])).

(** [ofs.close()]: flushes the pending characters to the file and
    releases the handle. *)
Definition ofstream_close (s : ofstream) : M ofstream :=
  fun w =>
    if o_open s then
      let old := match fs w (o_path s) with Some c => c | None => EmptyString end in
      (mk_ofstream (o_path s) false (o_fail s) (o_base s) (o_fill s) (o_width s) EmptyString,
       mk_World (fs_set (fs w) (o_path s) (old ++ o_buf s)) (writable w)
         (cout w) (cerr w)
         (trace w ++ [EvWrite (o_path s) (o_buf s); EvClose (o_path s)]))
    else
      (mk_ofstream (o_path s) false true (o_base s) (o_fill s) (o_width s) (o_buf s), w).

(** [std::cout << txt] and [std::cerr << txt]. *)
Definition cout_put (txt : string) : M unit :=
  fun w => (tt, mk_World (fs w) (writable w) (cout w ++ txt) (cerr w)
                  (trace w ++ [EvStdout txt])).

Definition cerr_put (txt : string) : M unit :=
  fun w => (tt, mk_World (fs w) (writable w) (cout w) (cerr w ++ txt)
                  (trace w ++ [EvStderr txt])).

End Env.

Declare Scope io_scope.
Delimit Scope io_scope with io.
Notation "x <- c ;; k" := (Env.bind c (fun x => k))
  (at level 61, c at next level, right associativity) : io_scope.
Notation "c ;; k" := (Env.bind c (fun _ => k))
  (at level 61, right associativity) : io_scope.

(** ** The program *)

Module ExpLut.

Import IEEE Mem Stream Env.
Local Open Scope string_scope.

(** [static uint32_t float_to_u32(float v)]: [u] is declared
    uninitialised ([u0] are the bytes it happens to hold), [memcpy]
    copies [sizeof(u) = 4] bytes of the object [v] over it, and [u] is
    returned. *)
Definition sizeof_u32 : nat := 4.

Definition float_to_u32_from (bo : byte_order) (u0 : list Z) (v : binary32) : Z :=
  let u := memcpy u0 (bytes_of_float bo v) sizeof_u32 in
  u32_of_bytes bo u.

Definition float_to_u32 (bo : byte_order) (v : binary32) : Z :=
  float_to_u32_from bo [0; 0; 0; 0] v.

Definition STEPS : Z := 1024.
Definition STEP : double := double_div (double_of_int 1) (double_of_int 128).

Definition FILE_NAME : string := "exp_lut_1over128.hex".
Definition MSG_FAIL : string := "Failed to open output file." ++ endl_str.
Definition MSG_DONE : string :=
  "Generated exp_lut_1over128.hex with 1025 entries." ++ endl_str.

Section Program.

(** The host's [std::exp] on [double] and its byte order. *)
Variable exp : double -> double.
Variable bo : byte_order.

(** [double x = -k * STEP;] *)
Definition sample_x (k : Z) : double :=
  double_mul (double_of_int (- k)) STEP.

(** [float y = static_cast<float>(std::exp(x));] *)
Definition sample_y (k : Z) : float :=
  float_of_double (exp (sample_x k)).

(** [uint32_t u = float_to_u32(y);] *)
Definition sample_u (k : Z) : Z :=
  float_to_u32 bo (sample_y k).

(** One iteration of the loop body. *)
Definition loop_body (k : Z) (ofs : ofstream) : ofstream :=
  let x := sample_x k in
  let y := float_of_double (exp x) in
  let u := float_to_u32 bo y in
  put_str endl_str (put_u32 u (put_setw 8 ofs)).

(** [for (int k = 0; k <= STEPS; ++k) { ... }], started at [k]; [None]
    when [fuel] iterations do not reach the exit. *)
Fixpoint main_loop (fuel : nat) (k : Z) (ofs : ofstream) : option ofstream :=
  if (k <=? STEPS)%Z then
    match fuel with
    | O => None
    | S fuel' => main_loop fuel' (k + 1) (loop_body k ofs)
    end
  else Some ofs.

(** [int main()]: the exit status, or [None] when the loop ran out of
    fuel. *)
Definition main (fuel : nat) : M (option Z) :=
  (ofs <- ofstream_ctor FILE_NAME ;;
   if ofstream_not ofs then
     cerr_put MSG_FAIL ;;
     ret (Some 1)
   else
     let ofs := put_setfill "0"%char (put_hex ofs) in
     match main_loop fuel 0 ofs with
     | None => ret None
     | Some ofs =>
         _ <- ofstream_close ofs ;;
         cout_put MSG_DONE ;;
         ret (Some 0)
     end)%io.

End Program.

End ExpLut.

(** ** The table file, as its reader sees it *)

Module Table.

Import IEEE Mem Stream Env ExpLut.

(** A word in 8 hexadecimal digits, as the loop body prints it. *)
Definition hex8 (u : Z) : string := pad "0" 8 (digits_of_u32 Hex u).

(** Every line followed by the line terminator. *)
Fixpoint unlines (ls : list string) : string :=
  match ls with
  | [] => EmptyString
  | l :: rest => (l ++ endl_str ++ unlines rest)%string
  end.

(** The lines of a text, split at the line terminators; [cur] holds the
    characters of the line being read, latest first. *)
Fixpoint rev_string (s acc : string) : string :=
  match s with
  | EmptyString => acc
  | String c rest => rev_string rest (String c acc)
  end.

Fixpoint split_lines_aux (s cur : string) : list string :=
  match s with
  | EmptyString =>
      match cur with
      | EmptyString => []
      | _ => [rev_string cur EmptyString]
      end
  | String c rest =>
      if Ascii.eqb c LF then rev_string cur EmptyString :: split_lines_aux rest EmptyString
      else split_lines_aux rest (String c cur)
  end.

Definition split_lines (s : string) : list string := split_lines_aux s EmptyString.

(** Sample indices [k, k + n). *)
Fixpoint indices (n : nat) (k : Z) : list Z :=
  match n with
  | O => []
  | S n' => k :: indices n' (k + 1)
  end.

Definition all_indices : list Z := indices 1025 0.

Section Expected.
Variable exp : double -> double.
Variable bo : byte_order.

Definition table_lines : list string :=
  map (fun k => hex8 (sample_u exp bo k)) all_indices.

Definition table_text : string := unlines table_lines.

(** The world after a successful run. *)
Definition world_done (w : World) : World :=
  mk_World
    (fs_set (fs_set (fs w) FILE_NAME EmptyString) FILE_NAME table_text)
    (writable w) (cout w ++ MSG_DONE) (cerr w)
    (((trace w ++ [EvOpen FILE_NAME])
        ++ [EvWrite FILE_NAME table_text; EvClose FILE_NAME])
       ++ [EvStdout MSG_DONE]).

Definition world_failed (w : World) : World :=
  mk_World (fs w) (writable w) (cout w) (cerr w ++ MSG_FAIL)
    ((trace w ++ [EvOpenFailed FILE_NAME]) ++ [EvStderr MSG_FAIL]).
End Expected.

(** Characters that do not end a line. *)
Definition no_LF (c : ascii) : bool := negb (Ascii.eqb c LF).

(** The first character of a string. *)
Definition first_char (s : string) : option ascii :=
  match s with
  | EmptyString => None
  | String c _ => Some c
  end.

(** Worlds to run the program in: one where the table file can be created,
    one where a stale file is in the way, one where the directory is
    read-only. *)
Definition world_ok : World :=
  mk_World (fun _ => None) (fun _ => true) EmptyString EmptyString [].
Definition world_stale : World :=
  mk_World (fun p => if String.eqb p FILE_NAME then Some "stale contents"%string else None)
           (fun _ => true) EmptyString EmptyString [].
Definition world_readonly : World :=
  mk_World (fun _ => None) (fun _ => false) EmptyString EmptyString [].

End Table.

(** ** A reference for the host's [exp]

    The true values e^(-k/128) are enclosed between fixed-point bounds
    [lo / 2^P <= e^(-k/128) <= hi / 2^P] obtained from
    [1 - y <= e^(-y) <= 1 / (1 + y)] at [y = 2^-(7+J)], squared [J] times
    (giving the bounds for e^(-1/128)) and multiplied up [k] times, every
    operation rounded outwards. *)

Module ExpRef.

Import IEEE Stream ExpLut Table.

Definition P : Z := 256.
Definition J : nat := 100.

(** Fixed-point products, rounded down and up ([Z.shiftr] rounds towards
    minus infinity). *)
Definition mul_dn (a b : Z) : Z := Z.shiftr (a * b) P.
Definition mul_up (a b : Z) : Z := - Z.shiftr (- (a * b)) P.

Definition base_lo : Z := 2 ^ P - 2 ^ (P - 7 - Z.of_nat J).
Definition base_hi : Z := - ((- 2 ^ (P + 7 + Z.of_nat J)) / (2 ^ (7 + Z.of_nat J) + 1)).

Definition step_lo : Z := Nat.iter J (fun a => mul_dn a a) base_lo.
Definition step_hi : Z := Nat.iter J (fun a => mul_up a a) base_hi.

(** Bounds for e^(-k/128), k = 0, 1, ..., n - 1, starting from [(lo, hi)]. *)
Fixpoint enclosures_from (n : nat) (lo hi : Z) : list (Z * Z) :=
  match n with
  | O => []
  | S n' => (lo, hi) :: enclosures_from n' (mul_dn lo step_lo) (mul_up hi step_hi)
  end.

Definition enclosures : list (Z * Z) :=
  enclosures_from 1025 (2 ^ P) (2 ^ P).

Definition enclosure (k : Z) : Z * Z := nth (Z.to_nat k) enclosures (0, 0).

(** Rounding a fixed-point number to the nearest [double]. *)
Definition rn64 (n : Z) : double := binary_normalize prec64 emax64 n (- P) false.

Definition one64 : double := double_of_int 1.

(** The correctly rounded [double] of e^(-k/128). *)
Definition exp_ref_at (k : Z) : double :=
  if k =? 0 then one64 else rn64 (fst (enclosure k)).

(** The interval an accurate [exp] must hit at sample [k]: exactly 1 at
    [k = 0] (C, Annex F: exp of a zero returns 1), and otherwise at most
    [ULPS] units in the last place away from the correctly rounded
    value. *)
Definition ULPS : nat := 3.

Definition exp_lo (k : Z) : double :=
  if k =? 0 then one64
  else Nat.iter ULPS (SFpred prec64 emax64) (rn64 (fst (enclosure k))).

Definition exp_hi (k : Z) : double :=
  if k =? 0 then one64
  else Nat.iter ULPS (SFsucc prec64 emax64) (rn64 (snd (enclosure k))).

Definition exp_within (exp : double -> double) (k : Z) : bool :=
  double_leb (exp_lo k) (exp (sample_x k)) && double_leb (exp (sample_x k)) (exp_hi k).

(** The accuracy contract on the host's [exp], over the table's domain. *)
Definition accurate_on_samples (exp : double -> double) : Prop :=
  forall k, 0 <= k <= STEPS -> exp_within exp k = true.

(** What the bounds mean in the real numbers: the fixed-point unit 2^P, *)
Definition unit_R : R := IZR (2 ^ P).

(** the relation [lo / 2^P <= e^t <= hi / 2^P] (with [lo] non-negative), *)
Definition encloses (lo hi : Z) (t : R) : Prop :=
  0 <= lo /\
  (IZR lo <= Rtrigo_def.exp t * unit_R)%R /\
  (Rtrigo_def.exp t * unit_R <= IZR hi)%R.

(** and the starting point y = 2^-(7+J). *)
Definition tiny : R := (/ 2 ^ (7 + J))%R.

(** The sample index of [x = -k/128], when [x] is such a number. *)
Definition index_of_x (x : double) : option Z :=
  match x with
  | S754_zero _ => Some 0
  | S754_finite true m e =>
      if 0 <=? e + 7 then Some (Zpos m * 2 ^ (e + 7))
      else if Zpos m mod 2 ^ (- (e + 7)) =? 0 then Some (Zpos m / 2 ^ (- (e + 7)))
      else None
  | _ => None
  end.

(** A math library that is correctly rounded on the table's domain. *)
Definition exp_ref (x : double) : double :=
  match index_of_x x with
  | Some k => if (0 <=? k) && (k <=? STEPS) then exp_ref_at k else S754_nan
  | None => S754_nan
  end.

(** The accuracy contract in the real numbers: exp of zero is 1, and on
    the other samples the result is a double whose relative error
    against the true exponential is at most 2^-52. *)
Definition relative_error_contract (exp : double -> double) : Prop :=
  exp (S754_zero false) = one64 /\
  forall k, 1 <= k <= STEPS ->
    valid_double (exp (sample_x k)) = true /\
    (Rabs (SF2R (exp (sample_x k)) - Rtrigo_def.exp (SF2R (sample_x k)))
     <= Rtrigo_def.exp (SF2R (sample_x k)) / 2 ^ 52)%R.

(** The interval at sample [k] covers every double within relative error
    2^-52 of a real number between the bounds of the enclosure. *)
Definition bridge_ok (k : Z) : bool :=
  match exp_lo k, exp_hi k with
  | S754_finite false m1 e1, S754_finite false m2 e2 =>
      (e1 =? e2) && (- (P + 52) <=? e1) &&
      (2 ^ 52 <=? Zpos m1) && (Zpos m2 <? 2 ^ 53) &&
      (Zpos m1 * 2 ^ (e1 + (P + 52)) <=? (2 ^ 52 - 1) * fst (enclosure k)) &&
      ((2 ^ 52 + 1) * snd (enclosure k) <=? Zpos m2 * 2 ^ (e1 + (P + 52)))
  | _, _ => false
  end.

(** The reference value at sample [k] is itself within relative error
    2^-52 of every real number between the bounds. *)
Definition ref_ok (k : Z) : bool :=
  match exp_ref (sample_x k) with
  | S754_finite false m e =>
      valid_double (S754_finite false m e) && (- (P + 52) <=? e) &&
      ((2 ^ 52 - 1) * snd (enclosure k) <=? Zpos m * 2 ^ (e + (P + 52))) &&
      (Zpos m * 2 ^ (e + (P + 52)) <=? (2 ^ 52 + 1) * fst (enclosure k))
  | _ => false
  end.

(** The table an accurate [exp] leads to. *)
Definition lut_ref (k : Z) : float := float_of_double (exp_ref_at k).

(** Candidate significands [m1, m1 + 1, ..., m2]. *)
Definition pos_range (m1 m2 : positive) : list positive :=
  map (fun i => Z.to_pos (Zpos m1 + Z.of_nat i))
      (seq 0 (Z.to_nat (Zpos m2 - Zpos m1 + 1))).

(** The doubles of the interval at sample [k]: the interval's ends are
    positive, finite and share their exponent ([interval_ok]), so these
    are the values with a significand in between. *)
Definition interval_ok (k : Z) : bool :=
  match exp_lo k, exp_hi k with
  | S754_finite false _ e1, S754_finite false _ e2 => e1 =? e2
  | _, _ => false
  end.

Definition candidates (k : Z) : list double :=
  match exp_lo k, exp_hi k with
  | S754_finite false m1 e1, S754_finite false m2 _ =>
      map (fun m => S754_finite false m e1) (pos_range m1 m2)
  | _, _ => []
  end.

(** Every candidate at sample [k] narrows to the same [float]. *)
Definition check_sample (k : Z) : bool :=
  interval_ok k &&
  forallb (fun d => SF_same (float_of_double d) (lut_ref k)) (candidates k).

(** Positive normal values of the two formats. *)
Definition is_pos_normal64 (d : double) : bool :=
  valid_double d &&
  match SFclassify prec64 d with
  | PNormal => true
  | _ => false
  end.

Definition is_pos_normal32 (f : float) : bool :=
  valid_float f &&
  match SFclassify prec32 f with
  | PNormal => true
  | _ => false
  end.

(** The word of table entry [k]. *)
Definition lut_word (k : Z) : Z := bits_of_b32 (lut_ref k).

(** Decidable properties of the samples and of the reference table. *)
Definition minus_eight : double := double_of_int (-8).
Definition plus_zero : double := S754_zero false.

Definition x_in_domain (k : Z) : bool :=
  double_leb minus_eight (sample_x k) && double_leb (sample_x k) plus_zero &&
  match index_of_x (sample_x k) with Some i => i =? k | None => false end.

Definition decreasing_at (k : Z) : bool :=
  (lut_word (k + 1) <? lut_word k) && float_ltb (lut_ref (k + 1)) (lut_ref k).

Definition word_in_range (k : Z) : bool :=
  let u := lut_word k in
  (0x39000000 <=? u) && (u <=? 0x3f800000) &&
  negb (Z.testbit u 31) &&
  match first_char (hex8 u) with Some c => Ascii.eqb c "3" | None => false end &&
  String.eqb (digits_of_u32 Hex u) (hex8 u) &&
  Nat.eqb (String.length (digits_of_u32 Hex u)) 8.

End ExpRef.

(** ** Further definitions: classes of values, another math library,
    checks of the table's accuracy *)

Module More.

Import IEEE Mem Stream Env ExpLut Table ExpRef.

(** Values of the format that are not negative and not NaN: +0, the
    positive finite values and +infinity. *)
Definition is_nonneg (f : float) : bool :=
  match f with
  | S754_zero false | S754_infinity false | S754_finite false _ _ => true
  | _ => false
  end.

(** The sign of a value; NaN has none. *)
Definition sign_of (f : spec_float) : option bool :=
  match f with
  | S754_zero s | S754_infinity s | S754_finite s _ _ => Some s
  | S754_nan => None
  end.

(** A second math library: one unit in the last place above the
    correctly rounded value at the even samples, one below at the odd
    ones. *)
Definition exp_alt (x : double) : double :=
  match index_of_x x with
  | Some k =>
      if k =? 0 then one64
      else if (1 <=? k) && (k <=? STEPS) then
        (if Z.even k then SFsucc prec64 emax64 (exp_ref_at k)
         else SFpred prec64 emax64 (exp_ref_at k))
      else S754_nan
  | None => S754_nan
  end.

(** Table entry [k] is within half a unit in the last place, and within
    relative error 2^-24, of every real number between the bounds of
    the enclosure. *)
Definition lut_nearest (k : Z) : bool :=
  match lut_ref k with
  | S754_finite false m e =>
      (- P <=? e) &&
      ((2 * Zpos m - 1) * 2 ^ (e + P) <=? 2 * fst (enclosure k)) &&
      (2 * snd (enclosure k) <=? (2 * Zpos m + 1) * 2 ^ (e + P)) &&
      ((2 ^ 24 - 1) * snd (enclosure k) <=? Zpos m * 2 ^ (e + (P + 24))) &&
      (Zpos m * 2 ^ (e + (P + 24)) <=? (2 ^ 24 + 1) * fst (enclosure k))
  | _ => false
  end.

(** A world with another file next to where the table goes. *)
Definition world_notes : World :=
  mk_World (fun p => if String.eqb p "notes.txt" then Some "keep"%string else None)
           (fun _ => true) EmptyString EmptyString [].

(** The size of the table file in characters: 1025 lines of 8 digits and
    a terminator. *)
Definition FILE_SIZE : nat := 9 * 1025.

End More.

(** ** The table entry in the words of its specification

    The sample point and the narrowing written without the program's
    [STEP], [sample_x] and [float_of_double]: [spec_x k] is the double
    nearest to -k * 2^-7, and [narrow_rne] rounds a double to the nearest
    binary32 value, a tie going to the even significand. *)

Module Spec.

Import IEEE ExpLut.

(** [m / d] rounded to the nearest integer, a tie to the even one. *)
Definition rne_div (m d : Z) : Z :=
  let q := m / d in
  let r := m mod d in
  if 2 * r <? d then q
  else if d <? 2 * r then q + 1
  else if Z.even q then q else q + 1.

(** The binary32 value nearest to a double.  The unit in the last place
    is [2 ^ ulp]: it leaves 24 significant bits and is not below 2^-149;
    the significand is the value divided by it, rounded by [rne_div];
    a significand rounded up to 2^24 is 2^23 one exponent higher; past
    the largest exponent the result is an infinity. *)
Definition narrow_rne (v : double) : float :=
  match v with
  | S754_finite s m e =>
      let len := Z.log2 (Zpos m) + 1 in
      let ulp := Z.max (len + e - 24) (-149) in
      let q := if ulp <=? e then Zpos m * 2 ^ (e - ulp)
               else rne_div (Zpos m) (2 ^ (ulp - e)) in
      let '(q, ulp) := if q =? 2 ^ 24 then (2 ^ 23, ulp + 1) else (q, ulp) in
      match q with
      | Zpos p => if ulp <=? 104 then S754_finite s p ulp else S754_infinity s
      | _ => S754_zero s
      end
  | _ => v
  end.

(** The double nearest to [-k * 2^-7]. *)
Definition spec_x (k : Z) : double :=
  binary_normalize prec64 emax64 (- k) (-7) false.

(** Zeros and finite numbers: the values that denote a real number. *)
Definition is_finite (x : spec_float) : bool :=
  match x with
  | S754_zero _ | S754_finite _ _ _ => true
  | _ => false
  end.

(** At index [k] the program evaluates [exp] at the finite double
    [spec_x k]. *)
Definition sample_point_ok (k : Z) : bool :=
  SF_same (sample_x k) (spec_x k) && is_finite (spec_x k) && valid_double (spec_x k).

End Spec.

(** * Properties *)

Import IEEE Mem Stream Env ExpLut Table ExpRef.
Import More Spec.

(** ** Narrowing to [float] always yields a value of the format *)

Lemma digits2_pos_bounds (m : positive) :
  2 ^ (Zpos (digits2_pos m) - 1) <= Zpos m < 2 ^ Zpos (digits2_pos m).
Proof.
  induction m as [m IH | m IH |]; cbn [digits2_pos].
  - rewrite Pos2Z.inj_succ, Z.pow_succ_r by lia.
    replace (Z.succ (Zpos (digits2_pos m)) - 1) with (Z.succ (Zpos (digits2_pos m) - 1)) by lia.
    rewrite Z.pow_succ_r by lia. lia.
  - rewrite Pos2Z.inj_succ, Z.pow_succ_r by lia.
    replace (Z.succ (Zpos (digits2_pos m)) - 1) with (Z.succ (Zpos (digits2_pos m) - 1)) by lia.
    rewrite Z.pow_succ_r by lia. lia.
  - cbn. lia.
Qed.

Lemma pow2_digits_unique (m d : Z) (p : positive) :
  Zpos p = m -> 2 ^ (d - 1) <= m < 2 ^ d -> Zpos (digits2_pos p) = d.
Proof.
  intros <- H. pose proof (digits2_pos_bounds p) as B.
  set (q := Zpos (digits2_pos p)) in *.
  assert (0 < q) by (subst q; lia).
  destruct (Z.lt_trichotomy q d) as [L | [E | G]]; [exfalso | exact E | exfalso].
  - assert (2 ^ q <= 2 ^ (d - 1)) by (apply Z.pow_le_mono_r; lia). lia.
  - assert (0 <= d \/ d < 0) as [Hd | Hd] by lia.
    + assert (2 ^ d <= 2 ^ (q - 1)) by (apply Z.pow_le_mono_r; lia). lia.
    + rewrite (Z.pow_neg_r 2 d) in H by lia. lia.
Qed.

Lemma shr_1_m (r : shr_record) :
  0 <= shr_m r -> shr_m (shr_1 r) = shr_m r / 2.
Proof.
  destruct r as [m rb sb]; cbn [shr_m]. intros Hm.
  destruct m as [| p | p]; [reflexivity | | lia].
  destruct p as [p | p |]; cbn [shr_1 shr_m].
  - rewrite Pos2Z.inj_xI. apply Z.div_unique with (r := 1); lia.
  - rewrite Pos2Z.inj_xO. apply Z.div_unique with (r := 0); lia.
  - reflexivity.
Qed.

Lemma shr_1_m_nonneg (r : shr_record) : 0 <= shr_m r -> 0 <= shr_m (shr_1 r).
Proof. intros H. rewrite shr_1_m by exact H. apply Z.div_pos; lia. Qed.

Lemma shr_iter_m (p : positive) (r : shr_record) :
  0 <= shr_m r ->
  shr_m (iter_pos shr_1 p r) = shr_m r / 2 ^ Zpos p.
Proof.
  revert r; induction p as [p IH | p IH |]; intros r Hm; cbn [iter_pos].
  - pose proof (shr_1_m_nonneg r Hm) as H1.
    assert (0 <= shr_m (iter_pos shr_1 p (shr_1 r))) as H2
      by (rewrite IH by exact H1; apply Z.div_pos; lia).
    rewrite IH by exact H2. rewrite IH by exact H1. rewrite shr_1_m by exact Hm.
    rewrite !Z.div_div by lia. f_equal.
    rewrite <- Z.pow_add_r, <- Z.pow_succ_r by lia. f_equal. lia.
  - assert (0 <= shr_m (iter_pos shr_1 p r)) as H2
      by (rewrite IH by exact Hm; apply Z.div_pos; lia).
    rewrite IH by exact H2. rewrite IH by exact Hm.
    rewrite !Z.div_div by lia. f_equal.
    rewrite <- Z.pow_add_r by lia. f_equal. lia.
  - rewrite shr_1_m by exact Hm. reflexivity.
Qed.

Lemma round_nearest_even_cases (m : Z) (l : location) :
  round_nearest_even m l = m \/ round_nearest_even m l = m + 1.
Proof.
  destruct l as [| c]; [now left |].
  destruct c; cbn [round_nearest_even]; auto.
  destruct (Z.even m); auto.
Qed.

Lemma fexp32 (x : Z) : fexp prec32 emax32 x = Z.max (x - 24) (-149).
Proof. reflexivity. Qed.

(** digits of a quotient by a power of two *)
Lemma Zdigits2_nonneg (m : Z) : 0 <= Zdigits2 m.
Proof. destruct m; cbn; lia. Qed.

Lemma Zdigits2_bounds (m : Z) :
  0 < m -> 2 ^ (Zdigits2 m - 1) <= m < 2 ^ Zdigits2 m.
Proof. destruct m as [| p | p]; try lia. intros _. apply digits2_pos_bounds. Qed.

Lemma Zdigits2_unique (m d : Z) :
  0 < m -> 2 ^ (d - 1) <= m < 2 ^ d -> Zdigits2 m = d.
Proof.
  destruct m as [| p | p]; try lia. intros _ H.
  now apply (pow2_digits_unique (Zpos p)).
Qed.

Lemma Zdigits2_shift (m n : Z) :
  0 < m -> 0 <= n -> 0 < m / 2 ^ n -> Zdigits2 (m / 2 ^ n) = Zdigits2 m - n.
Proof.
  intros Hm Hn Hq. apply Zdigits2_unique; [exact Hq |].
  pose proof (Zdigits2_bounds m Hm) as [B1 B2].
  set (d := Zdigits2 m) in *.
  assert (0 < 2 ^ n) by (apply Z.pow_pos_nonneg; lia).
  assert (n < d) as Hnd.
  { destruct (Z_lt_le_dec n d) as [L | G]; [exact L | exfalso].
    assert (2 ^ d <= 2 ^ n) by (apply Z.pow_le_mono_r; lia).
    rewrite Z.div_small in Hq by lia. lia. }
  split.
  - apply Z.div_le_lower_bound; [lia |].
    rewrite <- Z.pow_add_r by lia. replace (n + (d - n - 1)) with (d - 1) by lia. exact B1.
  - apply Z.div_lt_upper_bound; [lia |].
    rewrite <- Z.pow_add_r by lia. replace (n + (d - n)) with d by lia. exact B2.
Qed.

Lemma Zdigits2_succ (m : Z) :
  0 < m -> Zdigits2 (m + 1) = Zdigits2 m \/
           (m + 1 = 2 ^ Zdigits2 m /\ Zdigits2 (m + 1) = Zdigits2 m + 1).
Proof.
  intros Hm. pose proof (Zdigits2_bounds m Hm) as [B1 B2].
  set (d := Zdigits2 m) in *.
  assert (0 < d) by (destruct m; cbn in d; subst d; lia).
  destruct (Z.eq_dec (m + 1) (2 ^ d)) as [E | N].
  - right. split; [exact E |].
    apply Zdigits2_unique; [lia |].
    replace (d + 1 - 1) with d by lia. rewrite Z.pow_add_r by lia. lia.
  - left. apply Zdigits2_unique; [lia |]. lia.
Qed.

Lemma shr_spec (r : shr_record) (e n : Z) :
  0 <= shr_m r ->
  exists r', shr r e n = (r', e + Z.max n 0) /\ shr_m r' = shr_m r / 2 ^ Z.max n 0.
Proof.
  intros Hm. destruct n as [| p | p]; cbn [shr].
  - exists r. rewrite Z.add_0_r. cbn. now rewrite Z.div_1_r.
  - exists (iter_pos shr_1 p r). rewrite Z.max_l by lia. split; [reflexivity |].
    now apply shr_iter_m.
  - exists r. rewrite Z.max_r by lia. rewrite Z.add_0_r. cbn. now rewrite Z.div_1_r.
Qed.

Lemma shr_record_of_loc_m (m : Z) (l : location) : shr_m (shr_record_of_loc m l) = m.
Proof. destruct l as [| []]; reflexivity. Qed.

Lemma shr_fexp_spec (m e : Z) (l : location) :
  0 <= m ->
  let n := Z.max (fexp prec32 emax32 (Zdigits2 m + e) - e) 0 in
  exists r', shr_fexp prec32 emax32 m e l = (r', e + n) /\ shr_m r' = m / 2 ^ n.
Proof.
  intros Hm n. unfold shr_fexp.
  destruct (shr_spec (shr_record_of_loc m l) e (fexp prec32 emax32 (Zdigits2 m + e) - e))
    as [r' [E M]].
  - now rewrite shr_record_of_loc_m.
  - exists r'. rewrite shr_record_of_loc_m in M. now split.
Qed.

Lemma Zdigits2_pow2 (k : Z) : 0 <= k -> Zdigits2 (2 ^ k) = k + 1.
Proof.
  intros Hk. assert (0 < 2 ^ k) by (apply Z.pow_pos_nonneg; lia).
  apply Zdigits2_unique; [lia |].
  replace (k + 1 - 1) with k by lia. rewrite Z.pow_add_r by lia. lia.
Qed.

(** The first shift brings the significand down to at most 24 bits. *)
Lemma first_shift (m e : Z) (l : location) :
  0 < m -> e <= fexp prec32 emax32 (Zdigits2 m + e) ->
  exists r1 e1,
    shr_fexp prec32 emax32 m e l = (r1, e1) /\ -149 <= e1 /\
    ((shr_m r1 = 0 /\ e1 = -149) \/ canonical32 (shr_m r1) e1).
Proof.
  intros Hm He.
  destruct (shr_fexp_spec m e l) as [r1 [E M]]; [lia |].
  set (n := Z.max (fexp prec32 emax32 (Zdigits2 m + e) - e) 0) in *.
  exists r1, (e + n). split; [exact E |].
  pose proof (Zdigits2_bounds m Hm) as [B1 B2].
  rewrite fexp32 in *. set (d := Zdigits2 m) in *.
  assert (n = Z.max (Z.max (d + e - 24) (-149) - e) 0) as Hn by reflexivity.
  clearbody n.
  assert (0 <= n) by lia.
  assert (0 < 2 ^ n) by (apply Z.pow_pos_nonneg; lia).
  split; [lia |].
  assert (0 <= m / 2 ^ n) by (apply Z.div_pos; lia).
  destruct (Z.eq_dec (m / 2 ^ n) 0) as [Z0 | NZ].
  - left. split; [lia |].
    apply Z.div_small_iff in Z0; [| lia].
    destruct Z0 as [Z0 | Z0]; [| lia].
    assert (d <= n).
    { destruct (Z_le_gt_dec d n) as [L | G]; [exact L | exfalso].
      assert (2 ^ n <= 2 ^ (d - 1)) by (apply Z.pow_le_mono_r; lia). lia. }
    lia.
  - right. split; [lia |]. rewrite M.
    rewrite Zdigits2_shift by lia. fold d. rewrite fexp32. lia.
Qed.

(** The second shift renormalises after a carry out of the significand. *)
Lemma second_shift (m e : Z) :
  0 <= m -> -149 <= e ->
  (m = 0 \/ canonical32 m e \/ (m = 2 ^ 24 /\ canonical32 (m - 1) e)) ->
  exists r2 e2,
    shr_fexp prec32 emax32 m e loc_Exact = (r2, e2) /\
    (shr_m r2 = 0 \/ canonical32 (shr_m r2) e2).
Proof.
  intros Hm He H.
  destruct (shr_fexp_spec m e loc_Exact Hm) as [r2 [E M]].
  rewrite fexp32 in E, M.
  remember (Z.max (Z.max (Zdigits2 m + e - 24) (-149) - e) 0) as n eqn:Hn.
  exists r2, (e + n). split; [exact E |].
  destruct H as [Z0 | [[Hp C] | [E24 [Hp C]]]].
  - left. subst m. rewrite M. apply Z.div_0_l.
    assert (0 < 2 ^ n) by (apply Z.pow_pos_nonneg; lia). lia.
  - right. rewrite fexp32 in C. assert (n = 0) as -> by lia.
    rewrite M, Z.add_0_r. cbn [Z.pow]. rewrite Z.div_1_r. split; [lia |].
    rewrite fexp32. exact C.
  - right. rewrite fexp32 in C. rewrite E24 in *.
    rewrite (Zdigits2_pow2 24) in Hn by lia.
    change (Zdigits2 (2 ^ 24 - 1)) with 24 in C.
    assert (n = 1) as -> by lia.
    rewrite M. change (2 ^ 24 / 2 ^ 1) with (2 ^ 23).
    split; [reflexivity |]. rewrite fexp32, (Zdigits2_pow2 23) by lia. lia.
Qed.

Lemma round_keeps_canonical (m e : Z) (l : location) :
  -149 <= e ->
  (m = 0 /\ e = -149) \/ canonical32 m e ->
  let m' := round_nearest_even m l in
  0 <= m' /\
  (m' = 0 \/ canonical32 m' e \/ (m' = 2 ^ 24 /\ canonical32 (m' - 1) e)).
Proof.
  intros He H m'.
  destruct (round_nearest_even_cases m l) as [R | R]; fold m' in R; rewrite R.
  - destruct H as [[Z0 _] | [Hp C]]; [lia |]. split; [lia | now right; left].
  - destruct H as [[Z0 E] | [Hp C]].
    + subst m e. split; [lia |]. right; left. split; [lia | reflexivity].
    + split; [lia |]. right.
      destruct (Zdigits2_succ m Hp) as [Same | [Pw Dg]].
      * left. split; [lia |]. rewrite Same. exact C.
      * rewrite fexp32 in C. pose proof (Zdigits2_nonneg m).
        destruct (Z.eq_dec (Zdigits2 m) 24) as [D24 | ND].
        -- right. rewrite D24 in Pw. split; [exact Pw |].
           replace (m + 1 - 1) with m by lia. split; [lia |]. rewrite fexp32. exact C.
        -- left. split; [lia |]. rewrite fexp32, Dg. lia.
Qed.

Lemma binary_round_aux_valid (s : bool) (m e : Z) (l : location) :
  0 < m -> e <= fexp prec32 emax32 (Zdigits2 m + e) ->
  valid_float (binary_round_aux prec32 emax32 s m e l) = true.
Proof.
  intros Hm He. unfold binary_round_aux.
  destruct (first_shift m e l Hm He) as [r1 [e1 [E1 [Hlo C1]]]]. rewrite E1.
  destruct (round_keeps_canonical (shr_m r1) e1 (loc_of_shr_record r1) Hlo C1) as [Hnn C2].
  destruct (second_shift _ e1 Hnn Hlo C2) as [r2 [e2 [E2 C3]]]. rewrite E2.
  destruct C3 as [Z0 | [Hp C]].
  - rewrite Z0. reflexivity.
  - destruct (shr_m r2) as [| p | p] eqn:Em; try lia.
    destruct (e2 <=? emax32 - prec32) eqn:Le; [| reflexivity].
    unfold valid_float, valid_binary, bounded, canonical_mantissa.
    rewrite Le, andb_true_r. apply Z.eqb_eq. exact C.
Qed.

Lemma iter_xO_value (m d : positive) :
  Zpos (Pos.iter xO m d) = Zpos m * 2 ^ Zpos d.
Proof.
  induction d as [| d IH] using Pos.peano_ind.
  - cbn [Pos.iter]. rewrite Pos2Z.inj_xO. change (2 ^ 1) with 2. lia.
  - rewrite Pos.iter_succ, Pos2Z.inj_xO, IH, Pos2Z.inj_succ, Z.pow_succ_r by lia. lia.
Qed.

Lemma shl_align_spec (m : positive) (e : Z) :
  let '(mz, ez) := shl_align m e (fexp prec32 emax32 (Zpos (digits2_pos m) + e)) in
  ez <= fexp prec32 emax32 (Zdigits2 (Zpos mz) + ez).
Proof.
  unfold shl_align. rewrite fexp32.
  pose proof (digits2_pos_bounds m) as [B1 B2].
  set (d := Zpos (digits2_pos m)) in *.
  destruct (Z.max (d + e - 24) (-149) - e) as [| p | p] eqn:E.
  - rewrite fexp32. cbn [Zdigits2]. fold d. lia.
  - rewrite fexp32. cbn [Zdigits2]. fold d. lia.
  - rewrite fexp32.
    assert (Zdigits2 (Zpos (Pos.iter xO m p)) = d + Zpos p) as ->.
    { apply Zdigits2_unique; [lia |]. rewrite iter_xO_value.
      assert (0 < d) by (subst d; lia).
      replace (d + Zpos p - 1) with ((d - 1) + Zpos p) by lia.
      rewrite !Z.pow_add_r by lia.
      assert (0 < 2 ^ Zpos p) by (apply Z.pow_pos_nonneg; lia). nia. }
    lia.
Qed.

Lemma binary_round_valid (s : bool) (m : positive) (e : Z) :
  valid_float (binary_round prec32 emax32 s m e) = true.
Proof.
  unfold binary_round. pose proof (shl_align_spec m e) as H.
  destruct (shl_align m e (fexp prec32 emax32 (Zpos (digits2_pos m) + e))) as [mz ez].
  apply binary_round_aux_valid; [lia | exact H].
Qed.

Lemma float_of_double_valid (d : double) : valid_float (float_of_double d) = true.
Proof.
  destruct d as [s | s | | s m e]; try reflexivity.
  apply binary_round_valid.
Qed.

(** ** Narrowing is rounding to nearest, ties to even *)

(** [rne_div] gives a nearest integer quotient, and the even one of the
    two when they are equally near. *)
Lemma rne_div_nearest (m d z : Z) :
  0 < d -> Z.abs (rne_div m d * d - m) <= Z.abs (z * d - m).
Proof.
  intros Hd. unfold rne_div.
  pose proof (Z.div_mod m d ltac:(lia)) as E.
  pose proof (Z.mod_pos_bound m d Hd) as B.
  set (q := m / d) in *. set (r := m mod d) in *. clearbody q r.
  assert (z <= q \/ q + 1 <= z) as [Hz | Hz] by lia.
  - assert (z * d <= q * d) by nia.
    destruct (2 * r <? d) eqn:C1; [apply Z.ltb_lt in C1 | apply Z.ltb_ge in C1].
    + lia.
    + destruct (d <? 2 * r) eqn:C2; [| destruct (Z.even q)]; lia.
  - assert ((q + 1) * d <= z * d) by nia.
    destruct (2 * r <? d) eqn:C1; [apply Z.ltb_lt in C1 | apply Z.ltb_ge in C1].
    + lia.
    + destruct (d <? 2 * r) eqn:C2; [apply Z.ltb_lt in C2 | apply Z.ltb_ge in C2];
        [| destruct (Z.even q)]; lia.
Qed.

Lemma rne_div_tie_even (m d : Z) :
  0 < d -> 2 * Z.abs (rne_div m d * d - m) = d -> Z.even (rne_div m d) = true.
Proof.
  intros Hd. unfold rne_div.
  pose proof (Z.div_mod m d ltac:(lia)) as E.
  pose proof (Z.mod_pos_bound m d Hd) as B.
  set (q := m / d) in *. set (r := m mod d) in *. clearbody q r.
  destruct (2 * r <? d) eqn:C1; [apply Z.ltb_lt in C1 | apply Z.ltb_ge in C1].
  - intros H. exfalso. lia.
  - destruct (d <? 2 * r) eqn:C2; [apply Z.ltb_lt in C2 | apply Z.ltb_ge in C2].
    + intros H. exfalso. nia.
    + intros _. destruct (Z.even q) eqn:Ev; [exact Ev |].
      rewrite Z.even_add, Ev. reflexivity.
Qed.

(** One right shift, spelled out. *)
Lemma shr_1_record (m : Z) (r s : bool) :
  0 <= m ->
  shr_1 (Build_shr_record m r s) = Build_shr_record (m / 2) (Z.odd m) (r || s).
Proof.
  intros Hm. destruct m as [| p | p]; [reflexivity | | lia].
  destruct p as [p | p |]; cbn [shr_1].
  - f_equal. rewrite Pos2Z.inj_xI. apply Z.div_unique with (r := 1); lia.
  - f_equal. rewrite Pos2Z.inj_xO. apply Z.div_unique with (r := 0); lia.
  - reflexivity.
Qed.

Lemma iter_pos_nat {A : Type} (f : A -> A) (p : positive) (x : A) :
  iter_pos f p x = Nat.iter (Pos.to_nat p) f x.
Proof.
  revert x; induction p as [p IH | p IH |]; intros x; cbn [iter_pos].
  - rewrite !IH, Pos2Nat.inj_xI.
    replace (S (2 * Pos.to_nat p)) with (Pos.to_nat p + S (Pos.to_nat p))%nat by lia.
    rewrite Nat.iter_add, Nat.iter_succ_r. reflexivity.
  - rewrite !IH, Pos2Nat.inj_xO.
    replace (2 * Pos.to_nat p)%nat with (Pos.to_nat p + Pos.to_nat p)%nat by lia.
    rewrite Nat.iter_add. reflexivity.
  - reflexivity.
Qed.

(** After n + 1 right shifts of an exact value: the quotient, the bit
    shifted out last and whether any bit shifted out before was set. *)
Lemma shr_iter_record (m : Z) (n : nat) :
  0 <= m ->
  Nat.iter (S n) shr_1 (Build_shr_record m false false) =
  Build_shr_record (m / 2 ^ Z.of_nat (S n)) (Z.odd (m / 2 ^ Z.of_nat n))
                   (negb (m mod 2 ^ Z.of_nat n =? 0)).
Proof.
  intros Hm. induction n as [| n IH].
  - cbn [Nat.iter]. rewrite shr_1_record by exact Hm.
    change (2 ^ Z.of_nat 1) with 2. change (2 ^ Z.of_nat 0) with 1.
    rewrite Z.div_1_r, Z.mod_1_r. reflexivity.
  - change (Nat.iter (S (S n)) shr_1 (Build_shr_record m false false))
      with (shr_1 (Nat.iter (S n) shr_1 (Build_shr_record m false false))).
    rewrite IH.
    assert (0 < 2 ^ Z.of_nat n) as Pn by (apply Z.pow_pos_nonneg; lia).
    assert (2 ^ Z.of_nat (S n) = 2 * 2 ^ Z.of_nat n) as E1
      by (rewrite Nat2Z.inj_succ, Z.pow_succ_r by lia; reflexivity).
    assert (2 ^ Z.of_nat (S (S n)) = 2 * 2 ^ Z.of_nat (S n)) as E2
      by (rewrite (Nat2Z.inj_succ (S n)), Z.pow_succ_r by lia; reflexivity).
    rewrite shr_1_record by (apply Z.div_pos; lia).
    f_equal.
    + rewrite E2, (Z.mul_comm 2), <- Z.div_div by lia. reflexivity.
    + (* the sticky bit *)
      set (a := 2 ^ Z.of_nat n) in *. rewrite E1.
      pose proof (Z.div_mod m a ltac:(lia)) as D.
      pose proof (Z.mod_pos_bound m a Pn) as B.
      set (q := m / a) in *. set (r := m mod a) in *.
      pose proof (Z.div_mod q 2 ltac:(lia)) as Dq.
      pose proof (Z.mod_pos_bound q 2 ltac:(lia)) as Bq.
      assert (m mod (2 * a) = a * (q mod 2) + r) as ->.
      { symmetry. apply Z.mod_unique with (q := q / 2); [left; nia | nia]. }
      rewrite Zodd_mod.
      destruct (Z.eqb_spec (q mod 2) 1) as [O | O];
        destruct (Z.eqb_spec r 0) as [R | R]; cbn [negb orb].
      * symmetry. apply negb_true_iff, Z.eqb_neq. nia.
      * symmetry. apply negb_true_iff, Z.eqb_neq. nia.
      * symmetry. apply negb_false_iff, Z.eqb_eq. nia.
      * symmetry. apply negb_true_iff, Z.eqb_neq. nia.
Qed.

(** Shifting right and rounding on the bits shifted out is division
    rounded to nearest, ties to even. *)
Lemma round_after_shift (m : Z) (p : positive) :
  0 <= m ->
  let r := iter_pos shr_1 p (Build_shr_record m false false) in
  round_nearest_even (shr_m r) (loc_of_shr_record r) = rne_div m (2 ^ Zpos p).
Proof.
  intros Hm. cbv zeta. rewrite iter_pos_nat.
  destruct (Pos.to_nat p) as [| n] eqn:En; [lia |].
  rewrite shr_iter_record by exact Hm.
  assert (Zpos p = Z.of_nat (S n)) as -> by lia.
  cbn [shr_m loc_of_shr_record].
  assert (0 < 2 ^ Z.of_nat n) as Pn by (apply Z.pow_pos_nonneg; lia).
  assert (2 ^ Z.of_nat (S n) = 2 * 2 ^ Z.of_nat n) as E1
    by (rewrite Nat2Z.inj_succ, Z.pow_succ_r by lia; reflexivity).
  unfold rne_div. rewrite E1.
  set (a := 2 ^ Z.of_nat n) in *.
  pose proof (Z.div_mod m a ltac:(lia)) as D.
  pose proof (Z.mod_pos_bound m a Pn) as B.
  set (q := m / a) in *. set (r := m mod a) in *.
  pose proof (Z.div_mod q 2 ltac:(lia)) as Dq.
  pose proof (Z.mod_pos_bound q 2 ltac:(lia)) as Bq.
  assert (m mod (2 * a) = a * (q mod 2) + r) as ->.
  { symmetry. apply Z.mod_unique with (q := q / 2); [left; nia | nia]. }
  assert (m / (2 * a) = q / 2) as ->.
  { rewrite (Z.mul_comm 2), <- Z.div_div by lia. reflexivity. }
  rewrite Zodd_mod.
  destruct (Z.eqb_spec (q mod 2) 1) as [O | O];
    destruct (Z.eqb_spec r 0) as [R | R]; cbn [negb].
  - (* tie *)
    rewrite O, R.
    replace (2 * (a * 1 + 0) <? 2 * a) with false by (symmetry; apply Z.ltb_ge; lia).
    replace (2 * a <? 2 * (a * 1 + 0)) with false by (symmetry; apply Z.ltb_ge; lia).
    reflexivity.
  - rewrite O.
    replace (2 * (a * 1 + r) <? 2 * a) with false by (symmetry; apply Z.ltb_ge; lia).
    replace (2 * a <? 2 * (a * 1 + r)) with true by (symmetry; apply Z.ltb_lt; lia).
    reflexivity.
  - assert (q mod 2 = 0) as -> by lia. rewrite R.
    replace (2 * (a * 0 + 0) <? 2 * a) with true by (symmetry; apply Z.ltb_lt; lia).
    reflexivity.
  - assert (q mod 2 = 0) as -> by lia.
    replace (2 * (a * 0 + r) <? 2 * a) with true by (symmetry; apply Z.ltb_lt; lia).
    reflexivity.
Qed.

Lemma digits2_pos_log2 (m : positive) : Zpos (digits2_pos m) = Z.log2 (Zpos m) + 1.
Proof.
  pose proof (digits2_pos_bounds m) as [B1 B2].
  set (d := Zpos (digits2_pos m)) in *.
  assert (0 < d) by (subst d; lia).
  assert (Z.log2 (Zpos m) = d - 1); [| lia].
  apply Z.log2_unique; [lia |]. replace (Z.succ (d - 1)) with d by lia. lia.
Qed.

Lemma shr_fexp_noop (m e : Z) :
  fexp prec32 emax32 (Zdigits2 m + e) - e <= 0 ->
  shr_fexp prec32 emax32 m e loc_Exact = (Build_shr_record m false false, e).
Proof.
  intros H. unfold shr_fexp.
  destruct (fexp prec32 emax32 (Zdigits2 m + e) - e) as [| p | p]; [reflexivity | lia | reflexivity].
Qed.

Lemma canonical32_small (q u : Z) : canonical32 q u -> 0 < q < 2 ^ 24.
Proof.
  intros [Hq C]. rewrite fexp32 in C.
  pose proof (Zdigits2_bounds q Hq) as [_ B].
  assert (2 ^ Zdigits2 q <= 2 ^ 24)
    by (apply Z.pow_le_mono_r; [lia |]; pose proof (Zdigits2_nonneg q); lia).
  lia.
Qed.

(** The result of [binary_round_aux] on a significand already rounded to
    the unit in the last place. *)
Lemma finish_round (s : bool) (q u : Z) :
  -149 <= u -> 0 <= q ->
  (q = 0 \/ canonical32 q u \/ (q = 2 ^ 24 /\ canonical32 (q - 1) u)) ->
  (let '(r2, e2) := shr_fexp prec32 emax32 q u loc_Exact in
   match shr_m r2 with
   | 0 => S754_zero s
   | Zpos p => if e2 <=? emax32 - prec32 then S754_finite s p e2 else S754_infinity s
   | Zneg _ => S754_nan
   end) =
  (let '(q', u') := if q =? 2 ^ 24 then (2 ^ 23, u + 1) else (q, u) in
   match q' with
   | Zpos p => if u' <=? 104 then S754_finite s p u' else S754_infinity s
   | _ => S754_zero s
   end).
Proof.
  intros Hu Hq [Z0 | [C | [E C]]].
  - subst q. rewrite shr_fexp_noop by (rewrite fexp32; cbn [Zdigits2]; lia). reflexivity.
  - pose proof (canonical32_small q u C) as B. destruct C as [_ C].
    rewrite shr_fexp_noop by lia.
    replace (q =? 2 ^ 24) with false by (symmetry; apply Z.eqb_neq; lia).
    cbn [shr_m]. destruct q as [| p | p]; try lia. reflexivity.
  - subst q. destruct C as [_ C]. rewrite fexp32 in C.
    change (Zdigits2 (2 ^ 24 - 1)) with 24 in C.
    unfold shr_fexp. rewrite fexp32. change (Zdigits2 (2 ^ 24)) with 25.
    replace (Z.max (25 + u - 24) (-149) - u) with 1 by lia.
    reflexivity.
Qed.

(** The narrowing of the program is rounding to nearest, ties to even. *)
Lemma float_of_double_rne (d : double) : float_of_double d = narrow_rne d.
Proof.
  destruct d as [s | s | | s m e]; try reflexivity.
  cbn [float_of_double narrow_rne].
  rewrite <- digits2_pos_log2.
  unfold binary_round, shl_align. rewrite fexp32.
  pose proof (digits2_pos_bounds m) as [B1 B2].
  set (d := Zpos (digits2_pos m)) in *.
  assert (0 < d) as Hd by (subst d; lia).
  set (u := Z.max (d + e - 24) (-149)).
  assert (-149 <= u) as Hu by (subst u; lia).
  assert (d + e - 24 <= u) as Hu2 by (subst u; lia).
  destruct (u - e) as [| p | p] eqn:Ep.
  - (* the unit in the last place is the exponent: nothing to do *)
    assert (u = e) as Eu by lia.
    replace (u <=? e) with true by (symmetry; apply Z.leb_le; lia).
    replace (e - u) with 0 by lia. rewrite Z.mul_1_r.
    unfold binary_round_aux.
    rewrite shr_fexp_noop by (rewrite fexp32; cbn [Zdigits2]; fold d; fold u; lia).
    cbn [shr_m loc_of_shr_record round_nearest_even].
    rewrite <- Eu.
    apply (finish_round s (Zpos m) u Hu); [lia |].
    right; left. split; [lia |]. rewrite fexp32. cbn [Zdigits2]. fold d. lia.
  - (* bits are shifted out and rounded *)
    assert (u = e + Zpos p) as Eu by lia.
    replace (u <=? e) with false by (symmetry; apply Z.leb_gt; lia).
    replace (u - e) with (Zpos p) by lia.
    unfold binary_round_aux.
    destruct (first_shift (Zpos m) e loc_Exact) as [r1 [e1 [E1 [Hlo C1]]]];
      [lia | rewrite fexp32; cbn [Zdigits2]; fold d; lia |].
    assert (shr_fexp prec32 emax32 (Zpos m) e loc_Exact =
            (iter_pos shr_1 p (Build_shr_record (Zpos m) false false), u)) as E1'.
    { unfold shr_fexp. rewrite fexp32. cbn [Zdigits2]. fold d. fold u. rewrite Ep.
      cbn [shr shr_record_of_loc]. now rewrite Eu. }
    rewrite E1' in E1. injection E1 as <- <-. rewrite E1'.
    pose proof (round_keeps_canonical _ u (loc_of_shr_record
                  (iter_pos shr_1 p (Build_shr_record (Zpos m) false false))) Hlo C1)
      as [Hnn C2].
    rewrite round_after_shift in Hnn, C2 |- * by lia.
    apply (finish_round s _ u Hu Hnn C2).
  - (* the significand is shifted left: exact *)
    assert (e = u + Zpos p) as Ee by lia.
    replace (u <=? e) with true by (symmetry; apply Z.leb_le; lia).
    replace (e - u) with (Zpos p) by lia. rewrite <- iter_xO_value.
    assert (Zdigits2 (Zpos (Pos.iter xO m p)) = d + Zpos p) as Dg.
    { apply Zdigits2_unique; [lia |]. rewrite iter_xO_value.
      replace (d + Zpos p - 1) with ((d - 1) + Zpos p) by lia.
      rewrite !Z.pow_add_r by lia.
      assert (0 < 2 ^ Zpos p) by (apply Z.pow_pos_nonneg; lia). nia. }
    unfold binary_round_aux.
    rewrite shr_fexp_noop by (rewrite fexp32, Dg; lia).
    cbn [shr_m loc_of_shr_record round_nearest_even].
    apply (finish_round s _ u Hu); [lia |].
    right; left. split; [lia |]. rewrite fexp32, Dg. lia.
Qed.

(** ** Bit patterns and object representations *)

(** Shape of a valid binary32 value. *)
Lemma valid_float_finite (s : bool) (m : positive) (e : Z) :
  valid_float (S754_finite s m e) = true ->
  (2 ^ 23 <= Zpos m < 2 ^ 24 /\ -149 <= e <= 104) \/
  (Zpos m < 2 ^ 23 /\ e = -149).
Proof.
  unfold valid_float, valid_binary, bounded, canonical_mantissa.
  rewrite andb_true_iff, Z.eqb_eq, Z.leb_le, fexp32.
  change (emax32 - prec32) with 104.
  intros [C B]. pose proof (digits2_pos_bounds m) as [B1 B2].
  set (d := Zpos (digits2_pos m)) in *.
  assert (0 < d) by (subst d; lia).
  destruct (Z_lt_le_dec d 24) as [L | G].
  - right. split; [| lia].
    assert (2 ^ d <= 2 ^ 23) by (apply Z.pow_le_mono_r; lia). lia.
  - left. assert (d = 24) as E by lia. rewrite E in *. lia.
Qed.

Lemma join_bits32_range (s : bool) (e m : Z) :
  0 <= e < 256 -> 0 <= m < 2 ^ 23 -> 0 <= join_bits32 s e m < 2 ^ 32.
Proof.
  unfold join_bits32. change (2 ^ 8) with 256. change (2 ^ 23) with 8388608.
  change (2 ^ 32) with 4294967296. destruct s; cbn [Z.b2z]; lia.
Qed.

Lemma join_bits32_fields (s : bool) (e m : Z) :
  0 <= e < 256 -> 0 <= m < 2 ^ 23 ->
  let u := join_bits32 s e m in
  u mod 2 ^ 23 = m /\ (u / 2 ^ 23) mod 2 ^ 8 = e /\ ((u / 2 ^ 31) mod 2 =? 1) = s.
Proof.
  unfold join_bits32. change (2 ^ 8) with 256. change (2 ^ 23) with 8388608.
  change (2 ^ 31) with 2147483648.
  intros He Hm. cbv zeta.
  destruct s; cbn [Z.b2z]; (split; [| split]);
    [ | | apply Z.eqb_eq | | | apply Z.eqb_neq ]; Z.to_euclidean_division_equations; lia.
Qed.

Lemma bits_of_b32_range (v : float) :
  valid_float v = true -> 0 <= bits_of_b32 v < 2 ^ 32.
Proof.
  destruct v as [s | s | | s m e]; cbn [bits_of_b32]; intros V.
  - apply join_bits32_range; cbn; lia.
  - apply join_bits32_range; cbn; lia.
  - apply join_bits32_range; cbn; lia.
  - destruct (valid_float_finite s m e V) as [[Hm He] | [Hm He]].
    + replace (2 ^ 23 <=? Zpos m) with true by (symmetry; apply Z.leb_le; lia).
      apply join_bits32_range; change (2 ^ 24) with (2 * 2 ^ 23) in Hm; lia.
    + replace (2 ^ 23 <=? Zpos m) with false by (symmetry; apply Z.leb_gt; lia).
      apply join_bits32_range; lia.
Qed.

Lemma b32_of_bits_of_b32 (v : float) :
  valid_float v = true -> b32_of_bits (bits_of_b32 v) = v.
Proof.
  destruct v as [s | s | | s m e]; cbn [bits_of_b32]; intros V.
  - unfold b32_of_bits. destruct (join_bits32_fields s 0 0) as [-> [-> ->]]; cbn; try lia. reflexivity.
  - unfold b32_of_bits. destruct (join_bits32_fields s 255 0) as [-> [-> ->]]; cbn; try lia. reflexivity.
  - reflexivity.
  - destruct (valid_float_finite s m e V) as [[Hm He] | [Hm He]].
    + replace (2 ^ 23 <=? Zpos m) with true by (symmetry; apply Z.leb_le; lia).
      change (2 ^ 24) with (2 * 2 ^ 23) in Hm.
      unfold b32_of_bits.
      destruct (join_bits32_fields s (e + 150) (Zpos m - 2 ^ 23)) as [-> [-> ->]]; try lia.
      replace (e + 150 =? 0) with false by (symmetry; apply Z.eqb_neq; lia).
      replace (e + 150 =? 255) with false by (symmetry; apply Z.eqb_neq; lia).
      replace (Zpos m - 2 ^ 23 + 2 ^ 23) with (Zpos m) by lia.
      f_equal. lia.
    + replace (2 ^ 23 <=? Zpos m) with false by (symmetry; apply Z.leb_gt; lia).
      unfold b32_of_bits.
      destruct (join_bits32_fields s 0 (Zpos m)) as [-> [-> ->]]; try lia.
      cbn [Z.eqb]. now subst e.
Qed.

(** Bytes in memory: splitting a word and reading it back. *)
Lemma u32_of_le_split (n : nat) (u : Z) :
  u32_of_le_bytes (le_split n u) = u mod 256 ^ Z.of_nat n.
Proof.
  revert u; induction n as [| n IH]; intros u.
  - cbn. now rewrite Z.mod_1_r.
  - cbn [le_split u32_of_le_bytes]. rewrite IH, Nat2Z.inj_succ, Z.pow_succ_r by lia.
    rewrite Z.rem_mul_r by (try apply Z.pow_nonzero; lia). reflexivity.
Qed.

Lemma u32_of_bytes_of_u32 (bo : byte_order) (u : Z) :
  u32_of_bytes bo (bytes_of_u32 bo u) = u mod 2 ^ 32.
Proof.
  destruct bo; unfold u32_of_bytes, bytes_of_u32; [| rewrite rev_involutive];
    unfold le_bytes_of_u32; rewrite u32_of_le_split; reflexivity.
Qed.

Lemma le_split_bytes (n : nat) (u : Z) :
  Forall (fun b => 0 <= b < 256) (le_split n u).
Proof.
  revert u; induction n as [| n IH]; intros u; cbn [le_split]; constructor.
  - apply Z.mod_pos_bound; lia.
  - apply IH.
Qed.

Lemma bytes_of_u32_length (bo : byte_order) (u : Z) :
  List.length (bytes_of_u32 bo u) = 4%nat.
Proof. destruct bo; reflexivity. Qed.

Lemma bytes_of_u32_bytes (bo : byte_order) (u : Z) :
  Forall (fun b => 0 <= b < 256) (bytes_of_u32 bo u).
Proof.
  pose proof (le_split_bytes 4 u) as H. fold (le_bytes_of_u32 u) in H.
  destruct bo; cbn [bytes_of_u32]; [exact H |].
  apply Forall_rev. exact H.
Qed.

Lemma memcpy_whole (dst src : list Z) (n : nat) :
  List.length src = n -> List.length dst = n -> memcpy dst src n = src.
Proof.
  intros Ls Ld. unfold memcpy. subst n.
  rewrite firstn_all, <- Ld, skipn_all. apply app_nil_r.
Qed.

(** Objects and the values they hold. *)
Lemma bits_of_object_of (v : float) : bits_of_binary32 v = bits_of_b32 v.
Proof.
  destruct v as [s | s | | s m e]; try reflexivity.
  unfold bits_of_binary32. cbn [object_of sign_bit biased_exponent trailing_significand bits_of_b32].
  now destruct (2 ^ 23 <=? Zpos m).
Qed.

Lemma valid_object_of (v : float) :
  valid_float v = true -> valid_binary32 v = true.
Proof. destruct v; intros V; try reflexivity. exact V. Qed.

Lemma value_of_object_of (v : float) : value_of v = v.
Proof. now destruct v. Qed.

Lemma object_of_value_of (x : binary32) :
  value_of x <> S754_nan -> object_of (value_of x) = x.
Proof. destruct x; cbn; intros H; try reflexivity. now elim H. Qed.

Lemma valid_value_of (x : binary32) :
  valid_binary32 x = true -> valid_float (value_of x) = true.
Proof. destruct x; intros V; try reflexivity. exact V. Qed.

Lemma bits_of_binary32_range (x : binary32) :
  valid_binary32 x = true -> 0 <= bits_of_binary32 x < 2 ^ 32.
Proof.
  intros V. destruct x as [s | s | s pl | s m e].
  - apply (bits_of_b32_range (S754_zero s)). reflexivity.
  - apply (bits_of_b32_range (S754_infinity s)). reflexivity.
  - cbn [valid_binary32] in V. apply Z.ltb_lt in V.
    apply join_bits32_range; cbn [biased_exponent trailing_significand]; lia.
  - change (B32_finite s m e) with (object_of (S754_finite s m e)).
    rewrite bits_of_object_of. apply bits_of_b32_range. exact V.
Qed.

Lemma binary32_of_bits_value (u : Z) : value_of (binary32_of_bits u) = b32_of_bits u.
Proof.
  unfold binary32_of_bits, b32_of_bits.
  destruct ((u / 2 ^ 23) mod 2 ^ 8 =? 0); [now destruct (u mod 2 ^ 23) |].
  destruct ((u / 2 ^ 23) mod 2 ^ 8 =? 255).
  - pose proof (Z.mod_pos_bound u (2 ^ 23) eq_refl).
    destruct (u mod 2 ^ 23); try reflexivity. lia.
  - now destruct (u mod 2 ^ 23 + 2 ^ 23).
Qed.

Lemma binary32_of_bits_of_binary32 (x : binary32) :
  valid_binary32 x = true -> binary32_of_bits (bits_of_binary32 x) = x.
Proof.
  intros V. destruct x as [s | s | s pl | s m e].
  - unfold binary32_of_bits, bits_of_binary32.
    cbn [sign_bit biased_exponent trailing_significand].
    destruct (join_bits32_fields s 0 0) as [-> [-> ->]]; cbn; try lia. reflexivity.
  - unfold binary32_of_bits, bits_of_binary32.
    cbn [sign_bit biased_exponent trailing_significand].
    destruct (join_bits32_fields s 255 0) as [-> [-> ->]]; cbn; try lia. reflexivity.
  - cbn [valid_binary32] in V. apply Z.ltb_lt in V.
    unfold binary32_of_bits, bits_of_binary32.
    cbn [sign_bit biased_exponent trailing_significand].
    destruct (join_bits32_fields s 255 (Zpos pl)) as [-> [-> ->]]; try lia.
    reflexivity.
  - pose proof (b32_of_bits_of_b32 (S754_finite s m e) V) as E.
    rewrite <- bits_of_object_of, <- binary32_of_bits_value in E.
    change (object_of (S754_finite s m e)) with (B32_finite s m e) in E.
    destruct (binary32_of_bits (bits_of_binary32 (B32_finite s m e))); try discriminate E.
    cbn [value_of] in E. congruence.
Qed.

Lemma float_to_u32_from_word (bo : byte_order) (u0 : list Z) (v : binary32) :
  List.length u0 = 4%nat ->
  float_to_u32_from bo u0 v = bits_of_binary32 v mod 2 ^ 32.
Proof.
  intros L. unfold float_to_u32_from, bytes_of_float, sizeof_u32.
  rewrite memcpy_whole by (try apply bytes_of_u32_length; exact L).
  apply u32_of_bytes_of_u32.
Qed.

Lemma float_to_u32_word (bo : byte_order) (v : binary32) :
  valid_binary32 v = true -> float_to_u32 bo v = bits_of_binary32 v.
Proof.
  intros V. unfold float_to_u32. rewrite float_to_u32_from_word by reflexivity.
  apply Z.mod_small. now apply bits_of_binary32_range.
Qed.

Lemma float_to_u32_from_bits (bo : byte_order) (u0 : list Z) (v : float) :
  List.length u0 = 4%nat ->
  float_to_u32_from bo u0 v = bits_of_b32 v mod 2 ^ 32.
Proof.
  intros L. rewrite float_to_u32_from_word by exact L.
  now rewrite bits_of_object_of.
Qed.

Lemma float_to_u32_range (bo : byte_order) (v : float) :
  0 <= float_to_u32 bo v < 2 ^ 32.
Proof.
  unfold float_to_u32. rewrite float_to_u32_from_bits by reflexivity.
  apply Z.mod_pos_bound. reflexivity.
Qed.

Lemma float_to_u32_bits (bo : byte_order) (v : float) :
  valid_float v = true -> float_to_u32 bo v = bits_of_b32 v.
Proof.
  intros V. unfold float_to_u32. rewrite float_to_u32_from_bits by reflexivity.
  apply Z.mod_small. now apply bits_of_b32_range.
Qed.

(** ** Hexadecimal text *)

Lemma string_length_app (a b : string) :
  String.length (a ++ b) = (String.length a + String.length b)%nat.
Proof. induction a as [| c a IH]; cbn; [reflexivity | now rewrite IH]. Qed.

Lemma string_app_assoc (a b c : string) : ((a ++ b) ++ c = a ++ (b ++ c))%string.
Proof. induction a as [| x a IH]; cbn; [reflexivity | now rewrite IH]. Qed.

Lemma string_app_nil_r (a : string) : (a ++ EmptyString = a)%string.
Proof. induction a as [| x a IH]; cbn; [reflexivity | now rewrite IH]. Qed.

Lemma string_forallb_app (p : ascii -> bool) (a b : string) :
  string_forallb p (a ++ b) = string_forallb p a && string_forallb p b.
Proof.
  induction a as [| c a IH]; cbn; [reflexivity |].
  now rewrite IH, andb_assoc.
Qed.

Lemma repeat_char_length (c : ascii) (n : nat) : String.length (repeat_char c n) = n.
Proof. induction n as [| n IH]; cbn; [reflexivity | now rewrite IH]. Qed.

Lemma repeat_char_forallb (p : ascii -> bool) (c : ascii) (n : nat) :
  p c = true -> string_forallb p (repeat_char c n) = true.
Proof. intros H; induction n as [| n IH]; cbn; [reflexivity | now rewrite H, IH]. Qed.

Lemma hex_value_digit_char (d : Z) :
  0 <= d < 16 -> hex_value (digit_char d) = Some d.
Proof.
  intros H.
  destruct d as [| p | p]; [reflexivity | | lia].
  do 4 (destruct p as [p | p |]; try lia; try reflexivity).
Qed.

Lemma digits_aux_hex (fuel : nat) :
  forall (n : nat) (u : Z) (acc : string),
    (0 < n <= fuel)%nat -> 0 <= u < 16 ^ Z.of_nat n ->
    exists ds,
      digits_aux fuel 16 u acc = (ds ++ acc)%string /\
      (1 <= String.length ds <= n)%nat /\
      string_forallb is_lower_hex ds = true /\
      forall t a, parse_hex_aux (ds ++ t) a =
                  parse_hex_aux t (a * 16 ^ Z.of_nat (String.length ds) + u).
Proof.
  induction fuel as [| fuel IH]; intros n u acc Hn Hu; [lia |].
  cbn [digits_aux].
  assert (0 <= u mod 16 < 16) as Hd by (apply Z.mod_pos_bound; lia).
  pose proof (hex_value_digit_char _ Hd) as Hc.
  destruct (u / 16 =? 0) eqn:Eq.
  - apply Z.eqb_eq in Eq.
    assert (u mod 16 = u) as Hsmall by (apply Z.mod_small; Z.to_euclidean_division_equations; lia).
    exists (String (digit_char (u mod 16)) EmptyString). split; [reflexivity |].
    split; [cbn; lia |]. split.
    + cbn. unfold is_lower_hex. now rewrite Hc.
    + intros t a. cbn [append parse_hex_aux String.length]. rewrite Hc, Hsmall.
      f_equal. change (Z.of_nat 1) with 1. rewrite Z.pow_1_r. lia.
  - apply Z.eqb_neq in Eq.
    assert (16 <= u) as Hbig.
    { destruct (Z_lt_le_dec u 16) as [L | G]; [| exact G].
      exfalso. apply Eq. apply Z.div_small. lia. }
    destruct n as [| [| n]]; [lia | cbn in Hu; lia |].
    assert (0 <= u / 16 < 16 ^ Z.of_nat (S n)) as Hq.
    { split; [apply Z.div_pos; lia |].
      apply Z.div_lt_upper_bound; [lia |].
      rewrite (Nat2Z.inj_succ (S n)), Z.pow_succ_r in Hu by lia. lia. }
    destruct (IH (S n) (u / 16) (String (digit_char (u mod 16)) acc)) as [ds [E [L [F Pr]]]];
      [lia | exact Hq |].
    exists (ds ++ String (digit_char (u mod 16)) EmptyString)%string.
    split; [rewrite E, string_app_assoc; reflexivity |].
    split; [rewrite string_length_app; cbn; lia |].
    split.
    + rewrite string_forallb_app, F. cbn. unfold is_lower_hex. now rewrite Hc.
    + intros t a. rewrite string_app_assoc, Pr. cbn [append parse_hex_aux].
      rewrite Hc. f_equal. rewrite string_length_app. cbn [String.length].
      replace (Z.of_nat (String.length ds + 1)) with (Z.succ (Z.of_nat (String.length ds))) by lia.
      rewrite Z.pow_succ_r by lia.
      pose proof (Z.div_mod u 16). lia.
Qed.

Lemma parse_hex_aux_zeros (n : nat) (t : string) :
  parse_hex_aux (repeat_char "0" n ++ t) 0 = parse_hex_aux t 0.
Proof. induction n as [| n IH]; cbn; [reflexivity | exact IH]. Qed.

Lemma hex8_spec (u : Z) :
  0 <= u < 2 ^ 32 ->
  String.length (hex8 u) = 8%nat /\
  string_forallb is_lower_hex (hex8 u) = true /\
  parse_hex (hex8 u) = Some u.
Proof.
  intros Hu. unfold hex8, digits_of_u32, pad. cbn [radix].
  destruct (digits_aux_hex 11 8 u EmptyString) as [ds [E [L [F Pr]]]]; [lia | exact Hu |].
  rewrite E, string_app_nil_r. repeat split.
  - rewrite string_length_app, repeat_char_length. lia.
  - rewrite string_forallb_app, F, repeat_char_forallb; reflexivity.
  - unfold parse_hex.
    destruct (repeat_char "0" (8 - String.length ds) ++ ds)%string eqn:Es.
    + apply (f_equal String.length) in Es.
      rewrite string_length_app, repeat_char_length in Es. cbn in Es. lia.
    + rewrite <- Es, parse_hex_aux_zeros.
      rewrite <- (string_app_nil_r ds) at 1. rewrite Pr. cbn. f_equal.
Qed.

(** ** Runs of [main] *)

Section Run.
Variable exp : double -> double.
Variable bo : byte_order.

Lemma with_buf_ready (ofs : ofstream) (buf : string) : ready (with_buf ofs buf).
Proof. repeat split. Qed.

Lemma loop_body_run (k : Z) (ofs : ofstream) :
  ready ofs ->
  loop_body exp bo k ofs =
  with_buf ofs (o_buf ofs ++ hex8 (sample_u exp bo k) ++ endl_str)%string.
Proof.
  destruct ofs as [p o f b c w buf]. unfold ready; cbn [o_fail o_base o_fill o_width].
  intros [-> [-> [-> ->]]].
  unfold loop_body, put_str, put_u32, put_setw, insert, with_buf.
  cbn [o_fail o_base o_fill o_width o_path o_open o_buf].
  f_equal. rewrite string_app_assoc. reflexivity.
Qed.

Lemma main_loop_run (n : nat) :
  forall (fuel : nat) (k : Z) (ofs : ofstream),
    ready ofs -> k + Z.of_nat n = STEPS + 1 -> (n <= fuel)%nat ->
    main_loop exp bo fuel k ofs =
    Some (with_buf ofs
            (o_buf ofs ++ unlines (map (fun i => hex8 (sample_u exp bo i)) (indices n k)))%string).
Proof.
  induction n as [| n IH]; intros fuel k ofs R Hk Hf.
  - assert ((k <=? STEPS) = false) as E by (apply Z.leb_gt; lia).
    destruct fuel; cbn [main_loop]; rewrite E; cbn [indices map unlines];
      rewrite string_app_nil_r; destruct ofs as [p o f b c w buf];
      destruct R as [R1 [R2 [R3 R4]]]; cbn in R1, R2, R3, R4; subst; reflexivity.
  - assert ((k <=? STEPS) = true) as E by (apply Z.leb_le; lia).
    destruct fuel as [| fuel]; [lia |]. cbn [main_loop]. rewrite E.
    rewrite loop_body_run by exact R.
    rewrite IH; [| apply with_buf_ready | lia | lia].
    cbn [indices map unlines with_buf o_path o_open o_buf].
    rewrite !string_app_assoc. reflexivity.
Qed.

Lemma main_success (fuel : nat) (w : World) :
  (1025 <= fuel)%nat -> writable w FILE_NAME = true ->
  main exp bo fuel w = (Some 0, world_done exp bo w).
Proof.
  intros Hf Hw. unfold main, bind, ofstream_ctor. rewrite Hw.
  cbn [ofstream_not o_fail].
  rewrite (main_loop_run 1025); [| repeat split | reflexivity | exact Hf].
  unfold ofstream_close, with_buf. cbn [o_open o_path o_buf fs put_hex put_setfill].
  unfold cout_put, ret, world_done, table_text, table_lines, all_indices.
  cbn [fs writable cout cerr trace].
  replace (fs_set (fs w) FILE_NAME EmptyString FILE_NAME) with (Some EmptyString) by reflexivity.
  reflexivity.
Qed.

Lemma main_failure (fuel : nat) (w : World) :
  writable w FILE_NAME = false ->
  main exp bo fuel w = (Some 1, world_failed w).
Proof.
  intros Hw. unfold main, bind, ofstream_ctor. rewrite Hw. reflexivity.
Qed.

End Run.

(** ** Decoding a word and encoding it again *)

Lemma b32_fields (u : Z) :
  0 <= u < 2 ^ 32 ->
  exists s e m,
    u = join_bits32 s e m /\ 0 <= e < 256 /\ 0 <= m < 2 ^ 23 /\
    ((u / 2 ^ 31) mod 2 =? 1) = s /\ (u / 2 ^ 23) mod 2 ^ 8 = e /\ u mod 2 ^ 23 = m.
Proof.
  intros Hu.
  exists ((u / 2 ^ 31) mod 2 =? 1), ((u / 2 ^ 23) mod 2 ^ 8), (u mod 2 ^ 23).
  change (2 ^ 32) with 4294967296 in Hu.
  unfold join_bits32.
  change (2 ^ 8) with 256. change (2 ^ 23) with 8388608. change (2 ^ 31) with 2147483648.
  repeat split; try (Z.to_euclidean_division_equations; lia).
  destruct ((u / 2147483648) mod 2 =? 1) eqn:E; cbn [Z.b2z];
    [apply Z.eqb_eq in E | apply Z.eqb_neq in E];
    Z.to_euclidean_division_equations; lia.
Qed.

Lemma valid_float_intro (s : bool) (p : positive) (e : Z) :
  (2 ^ 23 <= Zpos p < 2 ^ 24 /\ -149 <= e <= 104) \/ (Zpos p < 2 ^ 23 /\ e = -149) ->
  valid_float (S754_finite s p e) = true.
Proof.
  intros H. unfold valid_float, valid_binary, bounded, canonical_mantissa.
  rewrite andb_true_iff, Z.eqb_eq, Z.leb_le, fexp32. change (emax32 - prec32) with 104.
  destruct H as [[Hm He] | [Hm He]].
  - rewrite (pow2_digits_unique (Zpos p) 24 p eq_refl) by (change (24 - 1) with 23; lia). lia.
  - pose proof (digits2_pos_bounds p) as [B1 B2].
    set (d := Zpos (digits2_pos p)) in *.
    assert (d <= 23).
    { destruct (Z_le_gt_dec d 23) as [L | G]; [exact L | exfalso].
      assert (2 ^ 23 <= 2 ^ (d - 1)) by (apply Z.pow_le_mono_r; lia). lia. }
    lia.
Qed.

Lemma bits_of_b32_of_bits (u : Z) :
  0 <= u < 2 ^ 32 -> is_nan_bits32 u = false ->
  valid_float (b32_of_bits u) = true /\ bits_of_b32 (b32_of_bits u) = u.
Proof.
  intros Hu Hn. destruct (b32_fields u Hu) as [s [e [m [Eu [He [Hm [Es [Ee Em]]]]]]]].
  unfold is_nan_bits32 in Hn. unfold b32_of_bits. rewrite Ee, Em in Hn.
  rewrite Es, Ee, Em. clear Es Ee Em.
  destruct (e =? 0) eqn:E0.
  - apply Z.eqb_eq in E0. subst e.
    destruct m as [| p | p]; [| | lia].
    + split; [reflexivity | now rewrite Eu].
    + split; [apply valid_float_intro; right; lia |].
      cbn [bits_of_b32].
      replace (2 ^ 23 <=? Zpos p) with false by (symmetry; apply Z.leb_gt; lia).
      now rewrite Eu.
  - apply Z.eqb_neq in E0.
    destruct (e =? 255) eqn:E255.
    + apply Z.eqb_eq in E255. subst e. cbn [andb] in Hn.
      apply negb_false_iff in Hn. rewrite Hn. apply Z.eqb_eq in Hn. subst m.
      split; [reflexivity | now rewrite Eu].
    + apply Z.eqb_neq in E255.
      destruct (m + 2 ^ 23) as [| p | p] eqn:Ep; [lia | | lia].
      split; [apply valid_float_intro; left; change (2 ^ 24) with (2 * 2 ^ 23); lia |].
      cbn [bits_of_b32].
      replace (2 ^ 23 <=? Zpos p) with true by (symmetry; apply Z.leb_le; lia).
      rewrite Eu. f_equal; lia.
Qed.

Lemma binary32_of_bits_not_nan (u : Z) :
  is_nan_bits32 u = false -> binary32_of_bits u = object_of (b32_of_bits u).
Proof.
  unfold is_nan_bits32, binary32_of_bits, b32_of_bits. intros Hn.
  destruct ((u / 2 ^ 23) mod 2 ^ 8 =? 0); [now destruct (u mod 2 ^ 23) |].
  destruct ((u / 2 ^ 23) mod 2 ^ 8 =? 255).
  - cbn [andb] in Hn. apply negb_false_iff in Hn. rewrite Hn.
    apply Z.eqb_eq in Hn. now rewrite Hn.
  - now destruct (u mod 2 ^ 23 + 2 ^ 23).
Qed.

(** Every 32-bit word, NaN patterns included, is the word of the object
    it decodes to. *)
Lemma bits_of_binary32_of_bits (u : Z) :
  0 <= u < 2 ^ 32 ->
  valid_binary32 (binary32_of_bits u) = true /\
  bits_of_binary32 (binary32_of_bits u) = u.
Proof.
  intros Hu. destruct (is_nan_bits32 u) eqn:Hn.
  - destruct (b32_fields u Hu) as [s [e [m [Eu [He [Hm [Es [Ee Em]]]]]]]].
    unfold is_nan_bits32 in Hn. unfold binary32_of_bits.
    rewrite Ee, Em in Hn. rewrite Es, Ee, Em. clear Es Ee Em.
    apply andb_true_iff in Hn as [H255 Hm0].
    apply Z.eqb_eq in H255. subst e.
    apply negb_true_iff, Z.eqb_neq in Hm0.
    change (255 =? 0) with false. change (255 =? 255) with true. cbv iota.
    destruct m as [| p | p]; [lia | | lia].
    split; [cbn [valid_binary32]; apply Z.ltb_lt; lia |].
    now rewrite Eu.
  - rewrite binary32_of_bits_not_nan by exact Hn.
    destruct (bits_of_b32_of_bits u Hu Hn) as [V E].
    split; [now apply valid_object_of | now rewrite bits_of_object_of].
Qed.

Lemma binary32_fields_range (x : binary32) :
  valid_binary32 x = true ->
  0 <= biased_exponent x < 256 /\ 0 <= trailing_significand x < 2 ^ 23.
Proof.
  intros V. destruct x as [s | s | s pl | s m e];
    cbn [biased_exponent trailing_significand]; try lia.
  - cbn [valid_binary32] in V. apply Z.ltb_lt in V. lia.
  - destruct (valid_float_finite s m e V) as [[Hm He] | [Hm He]].
    + replace (2 ^ 23 <=? Zpos m) with true by (symmetry; apply Z.leb_le; lia).
      change (2 ^ 24) with (2 * 2 ^ 23) in Hm. lia.
    + replace (2 ^ 23 <=? Zpos m) with false by (symmetry; apply Z.leb_gt; lia).
      lia.
Qed.

(** ** Lines of a text *)

Lemma rev_string_twice (l a b : string) :
  rev_string (rev_string l a) b = rev_string a (l ++ b)%string.
Proof.
  revert a b; induction l as [| c l IH]; intros a b; cbn [rev_string append].
  - reflexivity.
  - rewrite IH. reflexivity.
Qed.

Lemma split_lines_aux_line (l rest cur : string) :
  string_forallb no_LF l = true ->
  split_lines_aux (l ++ String LF rest) cur =
  rev_string (rev_string l cur) EmptyString :: split_lines_aux rest EmptyString.
Proof.
  revert cur; induction l as [| c l IH]; intros cur H.
  - reflexivity.
  - cbn [string_forallb] in H. apply andb_true_iff in H as [Hc Hl].
    cbn [append split_lines_aux rev_string].
    unfold no_LF in Hc. apply negb_true_iff in Hc. rewrite Hc.
    now apply IH.
Qed.

Lemma split_lines_unlines (ls : list string) :
  Forall (fun l => string_forallb no_LF l = true) ls ->
  split_lines (unlines ls) = ls.
Proof.
  unfold split_lines. induction 1 as [| l ls Hl _ IH]; [reflexivity |].
  cbn [unlines]. unfold endl_str at 1. cbn [append].
  rewrite split_lines_aux_line by exact Hl.
  rewrite IH, rev_string_twice. cbn [rev_string]. now rewrite string_app_nil_r.
Qed.

Lemma string_forallb_impl (p q : ascii -> bool) (s : string) :
  (forall c, p c = true -> q c = true) ->
  string_forallb p s = true -> string_forallb q s = true.
Proof.
  intros I; induction s as [| c s IH]; cbn [string_forallb]; [reflexivity |].
  rewrite !andb_true_iff. intros [Hc Hs]. split; [now apply I | now apply IH].
Qed.

Lemma lower_hex_no_LF (c : ascii) : is_lower_hex c = true -> no_LF c = true.
Proof.
  unfold no_LF. destruct (Ascii.eqb_spec c LF) as [-> | N]; [discriminate | reflexivity].
Qed.

(** ** The expected table *)

Lemma indices_length (n : nat) (k : Z) : List.length (indices n k) = n.
Proof. revert k; induction n as [| n IH]; intros k; cbn; [reflexivity | now rewrite IH]. Qed.

Lemma indices_nth (n : nat) :
  forall (k : Z) (i : nat), (i < n)%nat -> nth_error (indices n k) i = Some (k + Z.of_nat i).
Proof.
  induction n as [| n IH]; intros k i Hi; [lia |].
  destruct i as [| i]; cbn [indices nth_error].
  - f_equal. lia.
  - rewrite IH by lia. f_equal. lia.
Qed.

Section ExpectedTable.
Variable exp : double -> double.
Variable bo : byte_order.

Lemma table_lines_length : List.length (table_lines exp bo) = 1025%nat.
Proof. unfold table_lines, all_indices. now rewrite length_map, indices_length. Qed.

Lemma table_lines_nth (i : nat) :
  (i < 1025)%nat ->
  nth_error (table_lines exp bo) i = Some (hex8 (sample_u exp bo (Z.of_nat i))).
Proof.
  intros Hi. unfold table_lines, all_indices.
  rewrite nth_error_map, indices_nth by exact Hi. reflexivity.
Qed.

Lemma sample_u_range (k : Z) : 0 <= sample_u exp bo k < 2 ^ 32.
Proof. apply float_to_u32_range. Qed.

Lemma table_lines_no_LF :
  Forall (fun l => string_forallb no_LF l = true) (table_lines exp bo).
Proof.
  unfold table_lines. apply Forall_map, Forall_forall. intros k _.
  destruct (hex8_spec (sample_u exp bo k) (sample_u_range k)) as [_ [H _]].
  revert H. apply string_forallb_impl, lower_hex_no_LF.
Qed.

Lemma split_lines_table_text : split_lines (table_text exp bo) = table_lines exp bo.
Proof. apply split_lines_unlines, table_lines_no_LF. Qed.

Lemma fs_after_success (w : World) (p : string) :
  fs (world_done exp bo w) p =
  if String.eqb p FILE_NAME then Some (table_text exp bo) else fs w p.
Proof.
  unfold world_done, fs_set. cbn [fs].
  destruct (String.eqb p FILE_NAME); reflexivity.
Qed.

Lemma sample_u_bits (k : Z) :
  sample_u exp bo k = bits_of_b32 (sample_y exp k) /\
  b32_of_bits (sample_u exp bo k) = sample_y exp k.
Proof.
  unfold sample_u.
  rewrite float_to_u32_bits by apply float_of_double_valid.
  split; [reflexivity |]. apply b32_of_bits_of_b32, float_of_double_valid.
Qed.

End ExpectedTable.

(** ** The claims that hold for every [exp] *)

(** C8: [float_to_u32] is an exact same-width reinterpretation of the
    bit pattern.  For every [float] object [v] (a zero, a finite number,
    an infinity or any NaN with its sign and payload), on either byte
    order and whatever the uninitialised [u] held, the returned integer
    is a 32-bit word whose bit 31 is the sign, whose bits 30..23 are the
    biased exponent and whose bits 22..0 are the trailing significand of
    [v]; in memory it has the very bytes of [v]; and decoding it gives
    back [v] itself, the sign and payload of a NaN included: nothing is
    converted, rounded or truncated.  Conversely every 32-bit word is
    the bit pattern of a [float] object and is returned unchanged. *)
Theorem float_to_u32_bit_cast (bo : byte_order) (u0 : list Z) (v : binary32) :
  valid_binary32 v = true ->
  List.length u0 = 4%nat ->
  let u := float_to_u32_from bo u0 v in
  float_to_u32 bo v = u /\
  0 <= u < 2 ^ 32 /\
  u = bits_of_binary32 v /\
  ((u / 2 ^ 31) mod 2 =? 1) = sign_bit v /\
  (u / 2 ^ 23) mod 2 ^ 8 = biased_exponent v /\
  u mod 2 ^ 23 = trailing_significand v /\
  bytes_of_u32 bo u = bytes_of_float bo v /\
  binary32_of_bits u = v /\
  b32_of_bits u = value_of v /\
  (forall w : Z, 0 <= w < 2 ^ 32 ->
     valid_binary32 (binary32_of_bits w) = true /\
     float_to_u32_from bo u0 (binary32_of_bits w) = w).
Proof.
  intros V L. cbv zeta.
  pose proof (bits_of_binary32_range v V) as R.
  rewrite float_to_u32_from_word by exact L.
  rewrite float_to_u32_word by exact V.
  rewrite Z.mod_small by exact R.
  destruct (binary32_fields_range v V) as [He Hm].
  destruct (join_bits32_fields (sign_bit v) (biased_exponent v)
              (trailing_significand v) He Hm) as [F1 [F2 F3]].
  fold (bits_of_binary32 v) in F1, F2, F3.
  split; [reflexivity |]. split; [exact R |]. split; [reflexivity |].
  split; [exact F3 |]. split; [exact F2 |]. split; [exact F1 |].
  split; [reflexivity |].
  split; [now apply binary32_of_bits_of_binary32 |].
  split.
  - rewrite <- binary32_of_bits_value. f_equal. now apply binary32_of_bits_of_binary32.
  - intros w Hw. destruct (bits_of_binary32_of_bits w Hw) as [Vw Ew].
    split; [exact Vw |].
    rewrite float_to_u32_from_word by exact L. rewrite Ew.
    now apply Z.mod_small.
Qed.

Lemma float_to_u32_bit_cast_witness :
  float_to_u32_from LittleEndian [171; 205; 239; 1] (B32_nan false 0x412345) = 0x7fc12345 /\
  float_to_u32_from BigEndian [0; 0; 0; 0] (B32_nan true 0x400000) = 0xffc00000 /\
  float_to_u32_from BigEndian [1; 2; 3; 4] (S754_finite true 12582912 (-22)) = 0xc0400000.
Proof.
  split; [| split].
  - exact (proj1 (proj2 (proj2
      (float_to_u32_bit_cast LittleEndian [171; 205; 239; 1]
         (B32_nan false 0x412345) eq_refl eq_refl)))).
  - exact (proj1 (proj2 (proj2
      (float_to_u32_bit_cast BigEndian [0; 0; 0; 0]
         (B32_nan true 0x400000) eq_refl eq_refl)))).
  - exact (proj1 (proj2 (proj2
      (float_to_u32_bit_cast BigEndian [1; 2; 3; 4]
         (S754_finite true 12582912 (-22)) eq_refl eq_refl)))).
Defined.

(** Conversely every 32-bit word that is not a NaN pattern is the image of
    the float it encodes. *)
Lemma float_to_u32_onto (bo : byte_order) (u : Z) :
  0 <= u < 2 ^ 32 -> is_nan_bits32 u = false ->
  float_to_u32 bo (b32_of_bits u) = u.
Proof.
  intros Hu Hn. destruct (bits_of_b32_of_bits u Hu Hn) as [V E].
  rewrite float_to_u32_bits by exact V. exact E.
Qed.

Section AnyExp.
Variable exp : double -> double.
Variable bo : byte_order.


(** C4: the generator is deterministic and idempotent: a run against
    any world, also one where the file already exists, leaves exactly
    the table text in the file, and a second run leaves the same
    bytes. *)
Theorem main_idempotent (fuel : nat) (w : World) :
  (1025 <= fuel)%nat -> writable w FILE_NAME = true ->
  let w1 := snd (main exp bo fuel w) in
  let w2 := snd (main exp bo fuel w1) in
  fst (main exp bo fuel w) = Some 0 /\
  fst (main exp bo fuel w1) = Some 0 /\
  fs w1 FILE_NAME = Some (table_text exp bo) /\
  fs w2 FILE_NAME = fs w1 FILE_NAME.
Proof.
  intros Hf Hw. cbv zeta. rewrite main_success by assumption. cbn [fst snd].
  rewrite main_success by assumption. cbn [fst snd].
  rewrite !fs_after_success, String.eqb_refl. repeat split.
Qed.

(** C5: if the file cannot be opened for writing, the run writes the
    diagnostic to the error stream, touches no file, prints nothing on
    standard output, does nothing else and exits with status 1;
    otherwise the exit status is 0. *)
Theorem open_failure_status (fuel : nat) (w : World) :
  (1025 <= fuel)%nat ->
  let (status, w') := main exp bo fuel w in
  if writable w FILE_NAME then status = Some 0
  else
    status = Some 1 /\
    cerr w' = (cerr w ++ MSG_FAIL)%string /\
    MSG_FAIL = ("Failed to open output file." ++ endl_str)%string /\
    cout w' = cout w /\
    (forall p, fs w' p = fs w p) /\
    trace w' = trace w ++ [EvOpenFailed FILE_NAME; EvStderr MSG_FAIL].
Proof.
  intros Hf. destruct (writable w FILE_NAME) eqn:Hw.
  - rewrite main_success by assumption. reflexivity.
  - rewrite main_failure by assumption. unfold world_failed. cbn [cerr cout fs trace].
    rewrite <- app_assoc. repeat split.
Qed.

(** C6: on success exactly one line goes to standard output; it names
    the file and the 1025 entries, and it is emitted last: after the
    1025 table lines have been written to the file and the file has
    been closed. *)
Theorem success_report (fuel : nat) (w : World) :
  (1025 <= fuel)%nat -> writable w FILE_NAME = true ->
  let w' := snd (main exp bo fuel w) in
  trace w' =
    trace w ++ [EvOpen FILE_NAME; EvWrite FILE_NAME (table_text exp bo);
                EvClose FILE_NAME; EvStdout MSG_DONE] /\
  List.length (split_lines (table_text exp bo)) = 1025%nat /\
  cout w' = (cout w ++ MSG_DONE)%string /\
  cerr w' = cerr w /\
  MSG_DONE = ("Generated " ++ FILE_NAME ++ " with 1025 entries." ++ endl_str)%string /\
  split_lines MSG_DONE = ["Generated exp_lut_1over128.hex with 1025 entries."%string].
Proof.
  intros Hf Hw. cbv zeta. rewrite main_success by assumption. cbn [snd].
  unfold world_done. cbn [trace cout cerr].
  rewrite split_lines_table_text, table_lines_length, <- !app_assoc.
  repeat split.
Qed.

End AnyExp.


(** ** The enclosures contain the real exponential *)

Section EnclosureSound.

Local Open Scope R_scope.

Lemma unit_R_pos : 0 < unit_R.
Proof. unfold unit_R. apply IZR_lt. reflexivity. Qed.

Lemma mul_dn_below (a b : Z) :
  IZR (mul_dn a b) * unit_R <= IZR a * IZR b.
Proof.
  unfold mul_dn, unit_R. rewrite Z.shiftr_div_pow2 by discriminate.
  rewrite <- !mult_IZR. apply IZR_le.
  rewrite Z.mul_comm. apply Z.mul_div_le. reflexivity.
Qed.

Lemma mul_up_above (a b : Z) :
  IZR a * IZR b <= IZR (mul_up a b) * unit_R.
Proof.
  unfold mul_up, unit_R. rewrite Z.shiftr_div_pow2 by discriminate.
  rewrite <- !mult_IZR. apply IZR_le.
  pose proof (Z.mul_div_le (- (a * b)) (2 ^ P) eq_refl). lia.
Qed.

Lemma encloses_mul (l1 h1 l2 h2 : Z) (t1 t2 : R) :
  encloses l1 h1 t1 -> encloses l2 h2 t2 ->
  encloses (mul_dn l1 l2) (mul_up h1 h2) (t1 + t2).
Proof.
  intros [N1 [L1 H1]] [N2 [L2 H2]].
  pose proof unit_R_pos as U.
  pose proof (exp_pos t1) as E1. pose proof (exp_pos t2) as E2.
  pose proof (IZR_le _ _ N1) as P1. pose proof (IZR_le _ _ N2) as P2.
  split; [| split].
  - unfold mul_dn. apply Z.shiftr_nonneg, Z.mul_nonneg_nonneg; assumption.
  - rewrite exp_plus.
    apply Rmult_le_reg_r with (r := unit_R); [exact U |].
    apply Rle_trans with (1 := mul_dn_below l1 l2).
    replace (Rtrigo_def.exp t1 * Rtrigo_def.exp t2 * unit_R * unit_R)
      with ((Rtrigo_def.exp t1 * unit_R) * (Rtrigo_def.exp t2 * unit_R)) by ring.
    apply Rmult_le_compat; assumption.
  - rewrite exp_plus.
    apply Rmult_le_reg_r with (r := unit_R); [exact U |].
    apply Rle_trans with (2 := mul_up_above h1 h2).
    replace (Rtrigo_def.exp t1 * Rtrigo_def.exp t2 * unit_R * unit_R)
      with ((Rtrigo_def.exp t1 * unit_R) * (Rtrigo_def.exp t2 * unit_R)) by ring.
    apply Rmult_le_compat; try assumption;
      apply Rmult_le_pos; lra.
Qed.

Lemma encloses_squarings (j : nat) (lo hi : Z) (t : R) :
  encloses lo hi t ->
  encloses (Nat.iter j (fun a => mul_dn a a) lo) (Nat.iter j (fun a => mul_up a a) hi)
           (t * 2 ^ j).
Proof.
  intros H. induction j as [| j IH].
  - cbn [Nat.iter pow]. now rewrite Rmult_1_r.
  - cbn [Nat.iter pow].
    replace (t * (2 * 2 ^ j)) with (t * 2 ^ j + t * 2 ^ j) by ring.
    now apply encloses_mul.
Qed.

Lemma IZR_pow2 (n : nat) : IZR (2 ^ Z.of_nat n) = 2 ^ n.
Proof. rewrite <- pow_IZR. reflexivity. Qed.

Lemma encloses_base : encloses base_lo base_hi (- tiny).
Proof.
  pose proof unit_R_pos as U.
  assert (0 < 2 ^ (7 + J)) as Hp by (apply pow_lt; lra).
  assert (0 < tiny) as Ht by (apply Rinv_0_lt_compat; exact Hp).
  assert (IZR (2 ^ (7 + Z.of_nat J)) = 2 ^ (7 + J)) as EN
    by (rewrite <- IZR_pow2; f_equal).
  split; [| split].
  - vm_compute. discriminate.
  - apply Rle_trans with ((1 + - tiny) * unit_R).
    + unfold base_lo. rewrite minus_IZR. fold unit_R.
      assert (IZR (2 ^ (P - 7 - Z.of_nat J)) = tiny * unit_R) as ->.
      { unfold tiny, unit_R. rewrite <- EN.
        apply Rmult_eq_reg_l with (r := IZR (2 ^ (7 + Z.of_nat J))); [| rewrite EN; lra].
        rewrite <- Rmult_assoc, Rinv_r, Rmult_1_l by (rewrite EN; lra).
        rewrite <- mult_IZR. f_equal. }
      lra.
    + apply Rmult_le_compat_r; [lra | apply exp_ineq1_le].
  - rewrite exp_Ropp.
    pose proof (exp_ineq1_le tiny) as Hy.
    apply Rle_trans with (/ (1 + tiny) * unit_R).
    + apply Rmult_le_compat_r; [lra |].
      apply Rinv_le_contravar; lra.
    + assert (/ (1 + tiny) = 2 ^ (7 + J) / (2 ^ (7 + J) + 1)) as ->.
      { unfold tiny. field. split; lra. }
      unfold Rdiv. rewrite Rmult_assoc, (Rmult_comm (/ _)), <- Rmult_assoc.
      apply Rmult_le_reg_r with (r := 2 ^ (7 + J) + 1); [lra |].
      rewrite Rmult_assoc, Rinv_l, Rmult_1_r by lra.
      rewrite <- EN. unfold unit_R.
      replace (IZR (2 ^ (7 + Z.of_nat J)) + 1) with (IZR (2 ^ (7 + Z.of_nat J) + 1))
        by (rewrite plus_IZR; reflexivity).
      rewrite <- !mult_IZR. apply IZR_le.
      unfold base_hi.
      pose proof (Z.mul_div_le (- 2 ^ (P + 7 + Z.of_nat J)) (2 ^ (7 + Z.of_nat J) + 1) eq_refl)
        as D.
      assert (2 ^ (7 + Z.of_nat J) * 2 ^ P = 2 ^ (P + 7 + Z.of_nat J))%Z as -> by reflexivity.
      lia.
Qed.

Lemma encloses_step : encloses step_lo step_hi (- / 128).
Proof.
  unfold step_lo, step_hi.
  replace (- / 128) with (- tiny * 2 ^ J).
  - apply encloses_squarings, encloses_base.
  - unfold tiny. rewrite pow_add.
    assert (0 < 2 ^ J) by (apply pow_lt; lra).
    replace (2 ^ 7) with 128 by (cbn; ring).
    field. lra.
Qed.

Lemma encloses_from (n : nat) :
  forall (lo hi : Z) (t : R) (i : nat),
    encloses lo hi t -> (i < n)%nat ->
    encloses (fst (nth i (enclosures_from n lo hi) (0%Z, 0%Z)))
             (snd (nth i (enclosures_from n lo hi) (0%Z, 0%Z)))
             (t + INR i * - / 128).
Proof.
  induction n as [| n IH]; intros lo hi t i H Hi; [lia |].
  destruct i as [| i]; cbn [enclosures_from nth].
  - cbn [fst snd INR]. now rewrite Rmult_0_l, Rplus_0_r.
  - replace (t + INR (S i) * - / 128) with ((t + - / 128) + INR i * - / 128)
      by (rewrite S_INR; ring).
    apply IH; [| lia]. apply encloses_mul; [exact H | exact encloses_step].
Qed.

(** The enclosure at sample [k] contains the true value e^(-k/128). *)
Theorem enclosure_sound (k : Z) :
  (0 <= k <= 1024)%Z ->
  IZR (fst (enclosure k)) / unit_R <= Rtrigo_def.exp (- IZR k / 128) /\
  Rtrigo_def.exp (- IZR k / 128) <= IZR (snd (enclosure k)) / unit_R.
Proof.
  intros Hk. pose proof unit_R_pos as U.
  assert (encloses (2 ^ P) (2 ^ P) 0) as H0.
  { split; [vm_compute; discriminate |]. rewrite exp_0. fold unit_R. lra. }
  pose proof (encloses_from 1025 _ _ 0 (Z.to_nat k) H0 ltac:(lia)) as [_ [L H]].
  fold enclosures in L, H. fold (enclosure k) in L, H.
  rewrite INR_IZR_INZ, Z2Nat.id in L, H by lia.
  replace (0 + IZR k * - / 128) with (- IZR k / 128) in L, H by (unfold Rdiv; ring).
  split.
  - apply Rmult_le_reg_r with (r := unit_R); [exact U |].
    unfold Rdiv. rewrite Rmult_assoc, Rinv_l, Rmult_1_r by lra. exact L.
  - apply Rmult_le_reg_r with (r := unit_R); [exact U |].
    unfold Rdiv. rewrite Rmult_assoc, Rinv_l, Rmult_1_r by lra. exact H.
Qed.

End EnclosureSound.

(** ** An accurate [exp] determines the table

    Properties are checked on every sample by evaluation. *)

Lemma In_indices (n : nat) :
  forall k0 k, k0 <= k < k0 + Z.of_nat n -> In k (indices n k0).
Proof.
  induction n as [| n IH]; intros k0 k H; [lia |].
  cbn [indices]. destruct (Z.eq_dec k k0) as [-> | N]; [now left | right].
  apply IH. lia.
Qed.

Lemma on_all_indices (p : Z -> bool) :
  forallb p all_indices = true -> forall k, 0 <= k <= STEPS -> p k = true.
Proof.
  intros H k Hk. rewrite forallb_forall in H. apply H.
  apply In_indices. unfold STEPS in Hk. lia.
Qed.

Lemma SF_same_eq (a b : spec_float) : SF_same a b = true -> a = b.
Proof.
  destruct a as [s | s | | s m e], b as [t | t | | t n f]; cbn [SF_same]; try discriminate.
  - intros H. apply Bool.eqb_prop in H. now subst.
  - intros H. apply Bool.eqb_prop in H. now subst.
  - reflexivity.
  - rewrite !andb_true_iff. intros [[H1 H2] H3].
    apply Bool.eqb_prop in H1. apply Pos.eqb_eq in H2. apply Z.eqb_eq in H3. now subst.
Qed.

Lemma In_pos_range (m1 m2 m : positive) :
  (m1 <= m)%positive -> (m <= m2)%positive -> In m (pos_range m1 m2).
Proof.
  intros H1 H2. unfold pos_range. apply in_map_iff.
  exists (Z.to_nat (Zpos m - Zpos m1)). split.
  - rewrite Z2Nat.id by lia. replace (Zpos m1 + (Zpos m - Zpos m1)) with (Zpos m) by lia.
    reflexivity.
  - apply in_seq. lia.
Qed.

(** A double between two positive finite doubles of one exponent has that
    exponent and a significand in between. *)
Lemma double_leb_sandwich (m1 m2 : positive) (e : Z) (d : double) :
  double_leb (S754_finite false m1 e) d = true ->
  double_leb d (S754_finite false m2 e) = true ->
  exists m, d = S754_finite false m e /\ (m1 <= m)%positive /\ (m <= m2)%positive.
Proof.
  unfold double_leb, SFleb.
  destruct d as [s | s | | s m e']; cbn [SFcompare].
  - discriminate.
  - destruct s; discriminate.
  - discriminate.
  - destruct s; [discriminate |].
    destruct (Z.compare_spec e e') as [E | L | G]; [| | discriminate].
    + subst e'. rewrite Z.compare_refl.
      fold (Pos.compare m1 m). fold (Pos.compare m m2).
      intros H1 H2. exists m. split; [reflexivity |].
      split.
      * destruct (Pos.compare_spec m1 m); [lia | lia | discriminate].
      * destruct (Pos.compare_spec m m2); [lia | lia | discriminate].
    + intros _. rewrite (proj2 (Z.compare_gt_iff e' e)) by lia. discriminate.
Qed.

Lemma candidates_complete (k : Z) (d : double) :
  interval_ok k = true ->
  double_leb (exp_lo k) d = true -> double_leb d (exp_hi k) = true ->
  In d (candidates k).
Proof.
  unfold interval_ok, candidates.
  destruct (exp_lo k) as [| | | [] m1 e1]; try discriminate.
  destruct (exp_hi k) as [| | | [] m2 e2]; try discriminate.
  intros E H1 H2. apply Z.eqb_eq in E. subst e2.
  destruct (double_leb_sandwich m1 m2 e1 d H1 H2) as [m [-> [L1 L2]]].
  apply in_map_iff. exists m. split; [reflexivity | now apply In_pos_range].
Qed.

Lemma all_samples_checked : forallb check_sample all_indices = true.
Proof. vm_compute. reflexivity. Qed.

Lemma all_candidates_normal :
  forallb (fun k => forallb is_pos_normal64 (candidates k)) all_indices = true.
Proof. vm_compute. reflexivity. Qed.

Lemma exp_ref_accurate : accurate_on_samples exp_ref.
Proof.
  unfold accurate_on_samples. apply on_all_indices. vm_compute. reflexivity.
Qed.

Lemma exp_ref_zero : exp_ref (S754_zero false) = one64.
Proof. reflexivity. Qed.

Section AccurateExp.
Variable exp : double -> double.
Hypothesis exp_accurate : accurate_on_samples exp.

Lemma exp_sample_candidate (k : Z) :
  0 <= k <= STEPS -> In (exp (sample_x k)) (candidates k).
Proof.
  intros Hk. pose proof (exp_accurate k Hk) as H.
  unfold exp_within in H. apply andb_true_iff in H as [H1 H2].
  pose proof (on_all_indices _ all_samples_checked k Hk) as C.
  unfold check_sample in C. apply andb_true_iff in C as [C _].
  now apply candidates_complete.
Qed.

Lemma sample_y_determined (k : Z) :
  0 <= k <= STEPS -> sample_y exp k = lut_ref k.
Proof.
  intros Hk. pose proof (on_all_indices _ all_samples_checked k Hk) as C.
  unfold check_sample in C. apply andb_true_iff in C as [_ C].
  rewrite forallb_forall in C. unfold sample_y.
  apply SF_same_eq, C, exp_sample_candidate, Hk.
Qed.

Lemma sample_u_determined (bo : byte_order) (k : Z) :
  0 <= k <= STEPS -> sample_u exp bo k = lut_word k.
Proof.
  intros Hk. destruct (sample_u_bits exp bo k) as [B _].
  rewrite B, sample_y_determined by exact Hk. reflexivity.
Qed.

End AccurateExp.

(** ** The claims about the values in the table *)

Lemma sample_x_zero : sample_x 0 = S754_zero false.
Proof. reflexivity. Qed.

Lemma float_to_u32_one (bo : byte_order) :
  float_to_u32 bo (float_of_double (double_of_int 1)) = 0x3f800000.
Proof. destruct bo; reflexivity. Qed.

Section ExpAtZero.
Variable exp : double -> double.
Variable bo : byte_order.
Hypothesis exp_zero : exp (S754_zero false) = double_of_int 1.

(** C3: line 0 of the file (k = 0, x = 0, exp(0) = 1.0) is the string
    3f800000; it decodes to the word 0x3f800000, the binary32 pattern
    of 1.0f. *)
Theorem first_line_is_one (fuel : nat) (w : World) :
  (1025 <= fuel)%nat -> writable w FILE_NAME = true ->
  exists content line,
    fs (snd (main exp bo fuel w)) FILE_NAME = Some content /\
    nth_error (split_lines content) 0 = Some line /\
    line = "3f800000"%string /\
    parse_hex line = Some 0x3f800000 /\
    sample_x 0 = S754_zero false /\
    sample_y exp 0 = float_of_double (double_of_int 1) /\
    sample_u exp bo 0 = 0x3f800000 /\
    b32_of_bits 0x3f800000 = S754_finite false (2 ^ 23) (-23).
Proof.
  intros Hf Hw. rewrite main_success by assumption. cbn [snd].
  assert (sample_u exp bo 0 = 0x3f800000) as Hu.
  { unfold sample_u, sample_y. rewrite sample_x_zero, exp_zero. apply float_to_u32_one. }
  exists (table_text exp bo), (hex8 (sample_u exp bo 0)).
  rewrite fs_after_success, String.eqb_refl, split_lines_table_text.
  split; [reflexivity |].
  split; [apply (table_lines_nth exp bo 0); lia |].
  rewrite Hu. repeat split.
  unfold sample_y. now rewrite sample_x_zero, exp_zero.
Qed.

End ExpAtZero.

Lemma first_line_is_one_witness :
  exists content line,
    fs (snd (main exp_ref BigEndian 1025 world_stale)) FILE_NAME = Some content /\
    nth_error (split_lines content) 0 = Some line /\
    line = "3f800000"%string /\
    parse_hex line = Some 0x3f800000 /\
    sample_x 0 = S754_zero false /\
    sample_y exp_ref 0 = float_of_double (double_of_int 1) /\
    sample_u exp_ref BigEndian 0 = 0x3f800000 /\
    b32_of_bits 0x3f800000 = S754_finite false (2 ^ 23) (-23).
Proof.
  apply (first_line_is_one exp_ref BigEndian eq_refl 1025 world_stale); [lia | reflexivity].
Defined.

Lemma all_x_in_domain : forallb x_in_domain all_indices = true.
Proof. vm_compute. reflexivity. Qed.

Lemma lut_all_normal : forallb (fun k => is_pos_normal32 (lut_ref k)) all_indices = true.
Proof. vm_compute. reflexivity. Qed.

Lemma lut_decreasing : forallb decreasing_at (indices 1024 0) = true.
Proof. vm_compute. reflexivity. Qed.

Lemma lut_words_in_range : forallb word_in_range all_indices = true.
Proof. vm_compute. reflexivity. Qed.

Section AccurateExpClaims.
Variable exp : double -> double.
Variable bo : byte_order.
Hypothesis exp_accurate : accurate_on_samples exp.

(** C7: for every k in [0, 1024] the computation cannot fail: x is
    exactly -k/128, a double in [-8, 0]; exp(x) is a finite (positive,
    normal) double; and y = float(exp(x)) is a finite, strictly
    positive, normal float: no subnormal, zero, infinity or NaN. *)
Theorem samples_are_normal (k : Z) :
  0 <= k <= 1024 ->
  let x := sample_x k in
  let y := float_of_double (exp x) in
  index_of_x x = Some k /\
  double_leb (double_of_int (-8)) x = true /\
  double_leb x (S754_zero false) = true /\
  valid_double (exp x) = true /\
  SFclassify prec64 (exp x) = PNormal /\
  valid_float y = true /\
  SFclassify prec32 y = PNormal.
Proof.
  intros Hk. cbv zeta.
  pose proof (on_all_indices _ all_x_in_domain k Hk) as X.
  unfold x_in_domain in X. apply andb_true_iff in X as [X X3].
  apply andb_true_iff in X as [X1 X2].
  destruct (index_of_x (sample_x k)) as [i |] eqn:Ei; [| discriminate].
  apply Z.eqb_eq in X3. subst i.
  split; [reflexivity |]. split; [exact X1 |]. split; [exact X2 |].
  pose proof (on_all_indices _ all_candidates_normal k Hk) as N.
  rewrite forallb_forall in N.
  specialize (N _ (exp_sample_candidate exp exp_accurate k Hk)).
  unfold is_pos_normal64 in N. apply andb_true_iff in N as [N1 N2].
  split; [exact N1 |].
  split; [destruct (SFclassify prec64 (exp (sample_x k))); try discriminate; reflexivity |].
  pose proof (on_all_indices _ lut_all_normal k Hk) as M.
  unfold is_pos_normal32 in M. apply andb_true_iff in M as [M1 M2].
  fold (sample_y exp k). rewrite (sample_y_determined exp exp_accurate k Hk).
  split; [exact M1 |].
  destruct (SFclassify prec32 (lut_ref k)); try discriminate; reflexivity.
Qed.

Lemma sample_u_decreasing (k : Z) :
  0 <= k <= 1023 ->
  sample_u exp bo (k + 1) < sample_u exp bo k /\
  float_ltb (sample_y exp (k + 1)) (sample_y exp k) = true.
Proof.
  intros Hk.
  rewrite !(sample_u_determined exp exp_accurate bo) by (unfold STEPS; lia).
  rewrite !(sample_y_determined exp exp_accurate) by (unfold STEPS; lia).
  pose proof lut_decreasing as D. rewrite forallb_forall in D.
  specialize (D k (In_indices 1024 0 k ltac:(lia))).
  unfold decreasing_at in D. apply andb_true_iff in D as [D1 D2].
  apply Z.ltb_lt in D1. now split.
Qed.

Lemma sample_u_in_range (k : Z) :
  0 <= k <= 1024 ->
  let u := sample_u exp bo k in
  0x39000000 <= u <= 0x3f800000 /\
  Z.testbit u 31 = false /\
  first_char (hex8 u) = Some "3"%char /\
  digits_of_u32 Hex u = hex8 u /\
  String.length (digits_of_u32 Hex u) = 8%nat.
Proof.
  intros Hk. cbv zeta.
  rewrite (sample_u_determined exp exp_accurate bo k Hk).
  pose proof (on_all_indices _ lut_words_in_range k Hk) as W.
  unfold word_in_range in W. cbv zeta in W.
  repeat (apply andb_true_iff in W as [W ?]).
  repeat split.
  - now apply Z.leb_le.
  - now apply Z.leb_le.
  - now apply negb_true_iff.
  - destruct (first_char (hex8 (lut_word k))) as [c |]; [| discriminate].
    f_equal. now apply Ascii.eqb_eq.
  - now apply String.eqb_eq.
  - now apply Nat.eqb_eq.
Qed.

(** C9: the table that [main] writes is strictly decreasing: for every k
    in [0, 1023], lines k and k+1 of the file parse to words [u] and
    [u'], the bit patterns of the floats y(k) and y(k+1); [u'] is
    smaller than [u] as an unsigned integer, and y(k+1) is smaller than
    y(k) as a float. *)
Theorem table_strictly_decreasing (fuel : nat) (w : World) (k : Z) :
  (1025 <= fuel)%nat -> writable w FILE_NAME = true -> 0 <= k <= 1023 ->
  exists content line line' u u',
    fs (snd (main exp bo fuel w)) FILE_NAME = Some content /\
    nth_error (split_lines content) (Z.to_nat k) = Some line /\
    nth_error (split_lines content) (Z.to_nat (k + 1)) = Some line' /\
    parse_hex line = Some u /\
    parse_hex line' = Some u' /\
    u' < u /\
    b32_of_bits u = sample_y exp k /\
    b32_of_bits u' = sample_y exp (k + 1) /\
    float_ltb (b32_of_bits u') (b32_of_bits u) = true.
Proof.
  intros Hf Hw Hk. rewrite main_success by assumption. cbn [snd].
  exists (table_text exp bo), (hex8 (sample_u exp bo k)), (hex8 (sample_u exp bo (k + 1))),
         (sample_u exp bo k), (sample_u exp bo (k + 1)).
  rewrite fs_after_success, String.eqb_refl, split_lines_table_text.
  split; [reflexivity |].
  split; [rewrite table_lines_nth by lia; now rewrite Z2Nat.id by lia |].
  split; [rewrite table_lines_nth by lia; now rewrite Z2Nat.id by lia |].
  split; [apply hex8_spec, sample_u_range |].
  split; [apply hex8_spec, sample_u_range |].
  destruct (sample_u_decreasing k Hk) as [D1 D2].
  split; [exact D1 |].
  destruct (sample_u_bits exp bo k) as [_ B].
  destruct (sample_u_bits exp bo (k + 1)) as [_ B'].
  rewrite B, B'. repeat split. exact D2.
Qed.

(** C10: every line of the table that [main] writes parses to a word
    between 0x39000000 and 0x3f800000: its sign bit is clear, the first
    character of the line is 3, and the line is the 8 hexadecimal
    digits of the word with nothing in front: whatever the fill
    character, padding to the field width adds nothing. *)
Theorem table_word_range (fuel : nat) (w : World) (k : Z) :
  (1025 <= fuel)%nat -> writable w FILE_NAME = true -> 0 <= k <= 1024 ->
  exists content line u,
    fs (snd (main exp bo fuel w)) FILE_NAME = Some content /\
    nth_error (split_lines content) (Z.to_nat k) = Some line /\
    parse_hex line = Some u /\
    0x39000000 <= u <= 0x3f800000 /\
    Z.testbit u 31 = false /\
    first_char line = Some "3"%char /\
    line = digits_of_u32 Hex u /\
    String.length (digits_of_u32 Hex u) = 8%nat /\
    forall fill : ascii, pad fill 8 (digits_of_u32 Hex u) = line.
Proof.
  intros Hf Hw Hk. rewrite main_success by assumption. cbn [snd].
  exists (table_text exp bo), (hex8 (sample_u exp bo k)), (sample_u exp bo k).
  rewrite fs_after_success, String.eqb_refl, split_lines_table_text.
  split; [reflexivity |].
  split; [rewrite table_lines_nth by lia; now rewrite Z2Nat.id by lia |].
  split; [apply hex8_spec, sample_u_range |].
  destruct (sample_u_in_range k Hk) as [R [B [F [D L]]]].
  split; [exact R |]. split; [exact B |]. split; [exact F |].
  split; [now rewrite D |]. split; [exact L |].
  intros fill. rewrite <- D. unfold pad. rewrite L. reflexivity.
Qed.

End AccurateExpClaims.

Lemma samples_are_normal_witness :
  index_of_x (sample_x 1024) = Some 1024 /\
  double_leb (double_of_int (-8)) (sample_x 1024) = true /\
  double_leb (sample_x 1024) (S754_zero false) = true /\
  valid_double (exp_ref (sample_x 1024)) = true /\
  SFclassify prec64 (exp_ref (sample_x 1024)) = PNormal /\
  valid_float (float_of_double (exp_ref (sample_x 1024))) = true /\
  SFclassify prec32 (float_of_double (exp_ref (sample_x 1024))) = PNormal.
Proof.
  apply (samples_are_normal exp_ref exp_ref_accurate 1024). lia.
Defined.

Lemma table_strictly_decreasing_witness :
  exists content line line' u u',
    fs (snd (main exp_ref LittleEndian 1025 world_ok)) FILE_NAME = Some content /\
    nth_error (split_lines content) (Z.to_nat 1023) = Some line /\
    nth_error (split_lines content) (Z.to_nat (1023 + 1)) = Some line' /\
    parse_hex line = Some u /\
    parse_hex line' = Some u' /\
    u' < u /\
    b32_of_bits u = sample_y exp_ref 1023 /\
    b32_of_bits u' = sample_y exp_ref (1023 + 1) /\
    float_ltb (b32_of_bits u') (b32_of_bits u) = true.
Proof.
  apply (table_strictly_decreasing exp_ref LittleEndian exp_ref_accurate 1025 world_ok 1023);
    [lia | reflexivity | lia].
Defined.

Lemma table_word_range_witness :
  exists content line u,
    fs (snd (main exp_ref BigEndian 1025 world_stale)) FILE_NAME = Some content /\
    nth_error (split_lines content) (Z.to_nat 1024) = Some line /\
    parse_hex line = Some u /\
    0x39000000 <= u <= 0x3f800000 /\
    Z.testbit u 31 = false /\
    first_char line = Some "3"%char /\
    line = digits_of_u32 Hex u /\
    String.length (digits_of_u32 Hex u) = 8%nat /\
    forall fill : ascii, pad fill 8 (digits_of_u32 Hex u) = line.
Proof.
  apply (table_word_range exp_ref BigEndian exp_ref_accurate 1025 world_stale 1024);
    [lia | reflexivity | lia].
Defined.

(** ** The accuracy contract in the real numbers *)

Section RealValues.

Local Open Scope R_scope.

Lemma powerRZ2_pos (e : Z) : 0 < powerRZ 2 e.
Proof. apply powerRZ_lt. lra. Qed.

Lemma IZR_pow2_Z (n : Z) : (0 <= n)%Z -> IZR (2 ^ n) = powerRZ 2 n.
Proof.
  intros Hn. rewrite <- (Z2Nat.id n Hn) at 1.
  rewrite <- pow_IZR, pow_powerRZ, Z2Nat.id by exact Hn. reflexivity.
Qed.

Lemma dyadic_scale (a e c : Z) :
  (0 <= e + c)%Z ->
  IZR (a * 2 ^ (e + c)) = IZR a * powerRZ 2 e * powerRZ 2 c.
Proof.
  intros H. rewrite mult_IZR, IZR_pow2_Z by exact H.
  rewrite powerRZ_add by lra. ring.
Qed.

Lemma dyadic_le_Z (a b e1 e2 c : Z) :
  (0 <= e1 + c)%Z -> (0 <= e2 + c)%Z ->
  IZR a * powerRZ 2 e1 <= IZR b * powerRZ 2 e2 ->
  (a * 2 ^ (e1 + c) <= b * 2 ^ (e2 + c))%Z.
Proof.
  intros H1 H2 H. apply le_IZR. rewrite !dyadic_scale by assumption.
  apply Rmult_le_compat_r; [apply Rlt_le, powerRZ2_pos | exact H].
Qed.

Lemma index_of_x_value (x : double) (k : Z) :
  index_of_x x = Some k -> SF2R x = - IZR k / 128.
Proof.
  destruct x as [s | s | | s m e]; unfold index_of_x, SF2R; try discriminate.
  - intros [= <-]. lra.
  - destruct s; [| discriminate].
    change (IZR (Zneg m)) with (- IZR (Zpos m)).
    assert (powerRZ 2 7 = 128) as E7 by (change (powerRZ 2 7) with (2 ^ 7); ring).
    destruct (0 <=? e + 7)%Z eqn:Le.
    + apply Z.leb_le in Le. intros H.
      assert (k = Zpos m * 2 ^ (e + 7))%Z as -> by congruence. clear H.
      rewrite mult_IZR, IZR_pow2_Z, powerRZ_add, E7 by (try lra; exact Le). field.
    + apply Z.leb_gt in Le.
      destruct (Zpos m mod 2 ^ (- (e + 7)) =? 0)%Z eqn:Em; [| discriminate].
      apply Z.eqb_eq in Em. intros H.
      assert (k = Zpos m / 2 ^ (- (e + 7)))%Z as -> by congruence. clear H.
      assert (0 < 2 ^ (- (e + 7)))%Z as Hp by (apply Z.pow_pos_nonneg; lia).
      assert (Zpos m = Zpos m / 2 ^ (- (e + 7)) * 2 ^ (- (e + 7)))%Z as Hm.
      { pose proof (Z.div_mod (Zpos m) (2 ^ (- (e + 7)))). lia. }
      rewrite Hm at 1. rewrite mult_IZR, IZR_pow2_Z by lia.
      replace (- (e + 7))%Z with (- e + - (7))%Z by lia.
      rewrite powerRZ_add, !powerRZ_neg', E7 by lra.
      pose proof (powerRZ2_pos e). field. lra.
Qed.

Lemma sample_x_value (k : Z) :
  (0 <= k <= STEPS)%Z -> SF2R (sample_x k) = - IZR k / 128.
Proof.
  intros Hk. apply index_of_x_value.
  pose proof (on_all_indices _ all_x_in_domain k Hk) as A.
  unfold x_in_domain in A. apply andb_true_iff in A as [_ A].
  destruct (index_of_x (sample_x k)) as [i |]; [| discriminate].
  apply Z.eqb_eq in A. now subst.
Qed.

End RealValues.

(** ** Every entry is the correctly rounded float of [exp (-k/128)] *)

(** What [narrow_rne] returns for a finite double, in integers: the
    result is a multiple [q0 * 2^u0] of the unit in the last place
    [2^u0], exact when the unit is not above the double's exponent and
    within half a unit otherwise. *)
Lemma narrow_rne_finite (s s' : bool) (m q : positive) (e u : Z) :
  narrow_rne (S754_finite s m e) = S754_finite s' q u ->
  s' = s /\
  exists q0 u0 : Z,
    Zpos q * 2 ^ (u - u0) = q0 /\ u0 <= u /\
    ((u0 <= e /\ q0 = Zpos m * 2 ^ (e - u0)) \/
     (e < u0 /\ 2 * Z.abs (q0 * 2 ^ (u0 - e) - Zpos m) <= 2 ^ (u0 - e))).
Proof.
  unfold narrow_rne.
  set (u0 := Z.max (Z.log2 (Zpos m) + 1 + e - 24) (-149)).
  set (q0 := if u0 <=? e then Zpos m * 2 ^ (e - u0) else rne_div (Zpos m) (2 ^ (u0 - e))).
  assert ((u0 <= e /\ q0 = Zpos m * 2 ^ (e - u0)) \/
          (e < u0 /\ 2 * Z.abs (q0 * 2 ^ (u0 - e) - Zpos m) <= 2 ^ (u0 - e))) as Hq0.
  { subst q0. destruct (u0 <=? e) eqn:C; [apply Z.leb_le in C | apply Z.leb_gt in C].
    - left. now split.
    - right. split; [exact C |].
      assert (0 < 2 ^ (u0 - e)) as Hd by (apply Z.pow_pos_nonneg; lia).
      pose proof (rne_div_nearest (Zpos m) (2 ^ (u0 - e)) (Zpos m / 2 ^ (u0 - e)) Hd) as N1.
      pose proof (rne_div_nearest (Zpos m) (2 ^ (u0 - e)) (Zpos m / 2 ^ (u0 - e) + 1) Hd) as N2.
      pose proof (Z.div_mod (Zpos m) (2 ^ (u0 - e)) ltac:(lia)) as E.
      pose proof (Z.mod_pos_bound (Zpos m) (2 ^ (u0 - e)) Hd) as B.
      set (d := 2 ^ (u0 - e)) in *. set (a := Zpos m / d) in *. set (r := Zpos m mod d) in *.
      set (x := rne_div (Zpos m) d) in *. clearbody d a r x. nia. }
  clearbody q0 u0.
  destruct (q0 =? 2 ^ 24) eqn:C; [apply Z.eqb_eq in C | apply Z.eqb_neq in C].
  - change (2 ^ 23) with (Zpos 8388608).
    destruct (u0 + 1 <=? 104); [| discriminate].
    intros H. assert (s' = s /\ q = 8388608%positive /\ u = u0 + 1) as [-> [-> ->]]
      by (repeat split; congruence).
    split; [reflexivity |]. exists q0, u0.
    replace (u0 + 1 - u0) with 1 by lia. split; [now rewrite C |]. split; [lia | exact Hq0].
  - destruct q0 as [| p | p]; try discriminate.
    destruct (u0 <=? 104); [| discriminate].
    intros H. assert (s' = s /\ q = p /\ u = u0) as [-> [-> ->]]
      by (repeat split; congruence).
    split; [reflexivity |]. exists (Zpos p), u0.
    rewrite Z.sub_diag. split; [lia |]. split; [lia | exact Hq0].
Qed.

Section NearestValue.

Local Open Scope R_scope.

(** In the reals: a finite result of [narrow_rne] is within half a unit
    in the last place of the double it rounds. *)
Lemma narrow_rne_half_ulp (s s' : bool) (m q : positive) (e u : Z) :
  narrow_rne (S754_finite s m e) = S754_finite s' q u ->
  Rabs (SF2R (S754_finite s' q u) - SF2R (S754_finite s m e)) <= powerRZ 2 u / 2.
Proof.
  intros H. destruct (narrow_rne_finite s s' m q e u H) as [-> [q0 [u0 [Eq [Hu Hc]]]]].
  assert (IZR (Zpos q) * powerRZ 2 u = IZR q0 * powerRZ 2 u0) as Ev.
  { rewrite <- Eq, mult_IZR. rewrite (IZR_pow2_Z (u - u0)) by lia.
    rewrite Rmult_assoc, <- powerRZ_add by lra. do 2 f_equal. lia. }
  assert (powerRZ 2 u0 <= powerRZ 2 u) as Hp.
  { replace u with (u0 + (u - u0))%Z by lia. rewrite powerRZ_add by lra.
    rewrite <- (IZR_pow2_Z (u - u0)) by lia.
    assert (1 <= 2 ^ (u - u0))%Z as H1
      by (pose proof (Z.pow_pos_nonneg 2 (u - u0)); lia).
    apply IZR_le in H1. pose proof (powerRZ2_pos u0). nra. }
  assert (Rabs (IZR (Zpos q) * powerRZ 2 u - IZR (Zpos m) * powerRZ 2 e)
          <= powerRZ 2 u / 2) as B.
  { rewrite Ev. destruct Hc as [[Le ->] | [Lt Hh]].
    - rewrite mult_IZR, (IZR_pow2_Z (e - u0)) by lia.
      rewrite Rmult_assoc, <- powerRZ_add by lra.
      replace (e - u0 + u0)%Z with e by lia.
      rewrite Rminus_diag, Rabs_R0. pose proof (powerRZ2_pos u). lra.
    - replace u0 with (u0 - e + e)%Z at 1 by lia. rewrite powerRZ_add by lra.
      rewrite <- (IZR_pow2_Z (u0 - e)) by lia.
      replace (IZR q0 * (IZR (2 ^ (u0 - e)) * powerRZ 2 e) - IZR (Zpos m) * powerRZ 2 e)
        with (IZR (q0 * 2 ^ (u0 - e) - Zpos m) * powerRZ 2 e)
        by (rewrite minus_IZR, mult_IZR; ring).
      rewrite Rabs_mult, (Rabs_pos_eq (powerRZ 2 e)) by (apply Rlt_le, powerRZ2_pos).
      rewrite <- abs_IZR.
      apply IZR_le in Hh. rewrite mult_IZR, (IZR_pow2_Z (u0 - e)) in Hh by lia.
      assert (powerRZ 2 (u0 - e) * powerRZ 2 e = powerRZ 2 u0) as Es
        by (rewrite <- powerRZ_add by lra; f_equal; lia).
      pose proof (powerRZ2_pos e).
      set (A := IZR (Z.abs (q0 * 2 ^ (u0 - e) - Zpos m))) in *.
      set (P := powerRZ 2 (u0 - e)) in *. clearbody A P. nra. }
  unfold SF2R. destruct s.
  - change (IZR (Zneg q)) with (- IZR (Zpos q)). change (IZR (Zneg m)) with (- IZR (Zpos m)).
    replace (- IZR (Zpos q) * powerRZ 2 u - - IZR (Zpos m) * powerRZ 2 e)
      with (- (IZR (Zpos q) * powerRZ 2 u - IZR (Zpos m) * powerRZ 2 e)) by ring.
    now rewrite Rabs_Ropp.
  - exact B.
Qed.

End NearestValue.

Lemma sample_points_checked : forallb sample_point_ok all_indices = true.
Proof. vm_compute. reflexivity. Qed.

Lemma sample_x_spec (k : Z) :
  0 <= k <= STEPS ->
  sample_x k = spec_x k /\ is_finite (spec_x k) = true /\ valid_double (spec_x k) = true.
Proof.
  intros Hk. pose proof (on_all_indices _ sample_points_checked k Hk) as H.
  unfold sample_point_ok in H.
  apply andb_true_iff in H as [H V]. apply andb_true_iff in H as [E F].
  split; [now apply SF_same_eq | now split].
Qed.

Section BitExact.
Variable exp : double -> double.
Variable bo : byte_order.

(** C1: for every k in [0, 1024], line k of the file that [main] writes,
    read as a hexadecimal 32-bit integer [u] and reinterpreted as a
    binary32 bit pattern, is float(exp(-k/128)): [exp] applied to the
    finite double [x] whose real value is exactly [- k / 128], narrowed
    to single precision by rounding to nearest, ties to even
    ([narrow_rne], written without the program's [float_of_double]);
    [u] is the encoding word of that float. *)
Theorem table_entry_bit_exact (fuel : nat) (w : World) (k : Z) :
  (1025 <= fuel)%nat -> writable w FILE_NAME = true -> 0 <= k <= 1024 ->
  exists content line u x,
    fs (snd (main exp bo fuel w)) FILE_NAME = Some content /\
    nth_error (split_lines content) (Z.to_nat k) = Some line /\
    parse_hex line = Some u /\
    0 <= u < 2 ^ 32 /\
    x = spec_x k /\
    is_finite x = true /\
    valid_double x = true /\
    SF2R x = (- IZR k / 128)%R /\
    b32_of_bits u = narrow_rne (exp x) /\
    (exp x <> S754_nan -> u = bits_of_b32 (narrow_rne (exp x))).
Proof.
  intros Hf Hw Hk. rewrite main_success by assumption. cbn [snd].
  exists (table_text exp bo), (hex8 (sample_u exp bo k)), (sample_u exp bo k), (spec_x k).
  rewrite fs_after_success, String.eqb_refl, split_lines_table_text.
  destruct (sample_x_spec k Hk) as [Ex [Fx Vx]].
  split; [reflexivity |].
  split; [rewrite table_lines_nth by lia; now rewrite Z2Nat.id by lia |].
  destruct (hex8_spec (sample_u exp bo k) (sample_u_range exp bo k)) as [_ [_ Hp]].
  split; [exact Hp |]. split; [apply sample_u_range |].
  split; [reflexivity |]. split; [exact Fx |]. split; [exact Vx |].
  split; [rewrite <- Ex; now apply sample_x_value |].
  destruct (sample_u_bits exp bo k) as [B D].
  unfold sample_y in B, D. rewrite Ex, float_of_double_rne in B, D.
  split; [exact D | intros _; exact B].
Qed.

End BitExact.

(** Shape of a valid binary64 value. *)
Lemma valid_double_finite (s : bool) (m : positive) (e : Z) :
  valid_double (S754_finite s m e) = true ->
  -1074 <= e /\ Zpos m < 2 ^ 53 /\ (2 ^ 52 <= Zpos m \/ e = -1074).
Proof.
  unfold valid_double, valid_binary, bounded, canonical_mantissa.
  rewrite andb_true_iff, Z.eqb_eq, Z.leb_le.
  change (fexp prec64 emax64 (Zpos (digits2_pos m) + e))
    with (Z.max (Zpos (digits2_pos m) + e - 53) (-1074)).
  intros [C _]. pose proof (digits2_pos_bounds m) as [B1 B2].
  set (d := Zpos (digits2_pos m)) in *.
  assert (0 < d) by (subst d; lia).
  split; [lia |].
  assert (d <= 53) as Hd by lia.
  split.
  - assert (2 ^ d <= 2 ^ 53) by (apply Z.pow_le_mono_r; lia). lia.
  - destruct (Z.eq_dec d 53) as [E | N]; [left | right; lia].
    rewrite E in B1. exact B1.
Qed.

(** Two doubles of one binade: a valid double between them has their
    exponent and a significand in between. *)
Lemma binade_sandwich (m1 m2 m a b : Z) :
  0 <= a -> 0 <= b ->
  2 ^ 52 <= m1 -> m2 < 2 ^ 53 ->
  0 < m < 2 ^ 53 -> (2 ^ 52 <= m \/ b = 0) ->
  m1 * 2 ^ a <= m * 2 ^ b -> m * 2 ^ b <= m2 * 2 ^ a ->
  a = b /\ m1 <= m <= m2.
Proof.
  intros Ha Hb H1 H2 Hm Hn L U.
  assert (0 < 2 ^ a) as Pa by (apply Z.pow_pos_nonneg; lia).
  assert (0 < 2 ^ b) as Pb by (apply Z.pow_pos_nonneg; lia).
  destruct (Z.lt_trichotomy a b) as [Lt | [Eq | Gt]].
  - exfalso. destruct Hn as [Hn | Hn]; [| lia].
    assert (2 * 2 ^ a <= 2 ^ b).
    { rewrite <- Z.pow_succ_r by lia. apply Z.pow_le_mono_r; lia. }
    nia.
  - subst b. split; [reflexivity |]. nia.
  - exfalso.
    assert (2 * 2 ^ b <= 2 ^ a).
    { rewrite <- Z.pow_succ_r by lia. apply Z.pow_le_mono_r; lia. }
    nia.
Qed.

Section Bridge.

Local Open Scope R_scope.

Lemma Rabs_le_bounds (v E eps : R) :
  Rabs (v - E) <= eps -> E - eps <= v <= E + eps.
Proof.
  intros H. unfold Rabs in H. destruct (Rcase_abs (v - E)); lra.
Qed.

Lemma unit_R_scale : unit_R * 2 ^ 52 = powerRZ 2 (P + 52).
Proof.
  unfold unit_R. rewrite IZR_pow2_Z by (vm_compute; discriminate).
  rewrite powerRZ_add by lra. f_equal.
Qed.

(** A double within relative error 2^-52 of a real number inside the
    enclosure lies in the interval of the sample. *)
Lemma within_interval (k : Z) (d : double) (E : R) :
  bridge_ok k = true ->
  valid_double d = true ->
  IZR (fst (enclosure k)) / unit_R <= E <= IZR (snd (enclosure k)) / unit_R ->
  Rabs (SF2R d - E) <= E / 2 ^ 52 ->
  double_leb (exp_lo k) d = true /\ double_leb d (exp_hi k) = true.
Proof.
  unfold bridge_ok.
  destruct (exp_lo k) as [| | | [] m1 e1]; try discriminate.
  destruct (exp_hi k) as [| | | [] m2 e2]; try discriminate.
  set (lo := fst (enclosure k)). set (hi := snd (enclosure k)).
  rewrite !andb_true_iff.
  intros [[[[[Ee Hc] H1] H2] Clo] Chi] V [EL EH] A.
  apply Z.eqb_eq in Ee. subst e2.
  apply Z.leb_le in Hc, H1, Clo, Chi. apply Z.ltb_lt in H2.
  pose proof unit_R_pos as U. pose proof unit_R_scale as US.
  pose proof (powerRZ2_pos (P + 52)) as PS.
  pose proof (powerRZ2_pos e1) as P1.
  assert (0 <= e1 + (P + 52))%Z as Hs by lia.
  (* the bounds of the enclosure, scaled *)
  apply IZR_le in Clo, Chi.
  rewrite dyadic_scale in Clo, Chi by exact Hs. rewrite mult_IZR in Clo, Chi.
  rewrite minus_IZR in Clo. rewrite plus_IZR in Chi.
  rewrite IZR_pow2_Z in Clo, Chi by lia.
  change (powerRZ 2 52) with (2 ^ 52) in Clo, Chi.
  assert (IZR lo <= E * unit_R) as EL'.
  { apply Rmult_le_reg_r with (r := / unit_R); [now apply Rinv_0_lt_compat |].
    rewrite Rmult_assoc, Rinv_r, Rmult_1_r by lra. exact EL. }
  assert (E * unit_R <= IZR hi) as EH'.
  { apply Rmult_le_reg_r with (r := / unit_R); [now apply Rinv_0_lt_compat |].
    rewrite Rmult_assoc, Rinv_r, Rmult_1_r by lra. exact EH. }
  assert (0 < 2 ^ 52) as T by (apply pow_lt; lra).
  assert (0 < IZR (Zpos m1)) as M1 by (apply IZR_lt; lia).
  assert (0 < IZR lo) as Lpos.
  { assert (0 < IZR (Zpos m1) * powerRZ 2 e1 * powerRZ 2 (P + 52))
      by (apply Rmult_lt_0_compat; [apply Rmult_lt_0_compat |]; assumption).
    assert (0 < 2 ^ 52 - 1) by (assert (1 < 2 ^ 52) by (apply Rlt_pow_R1; [lra | lia]); lra).
    nra. }
  assert (0 < E) as Epos by nra.
  apply Rabs_le_bounds in A.
  assert (E / 2 ^ 52 * 2 ^ 52 = E) as Ediv by (field; lra).
  (* the value of [d], scaled by 2^(P+52) *)
  assert (IZR (Zpos m1) * powerRZ 2 e1 <= SF2R d) as Lv.
  { apply Rmult_le_reg_r with (r := powerRZ 2 (P + 52)); [exact PS |].
    apply Rle_trans with (1 := Clo). rewrite <- US.
    apply Rle_trans with ((2 ^ 52 - 1) * (E * unit_R)).
    - apply Rmult_le_compat_l; [| exact EL'].
      assert (1 < 2 ^ 52) by (apply Rlt_pow_R1; [lra | lia]). lra.
    - replace (SF2R d * (unit_R * 2 ^ 52)) with ((SF2R d * 2 ^ 52) * unit_R) by ring.
      replace ((2 ^ 52 - 1) * (E * unit_R)) with (((E - E / 2 ^ 52) * 2 ^ 52) * unit_R)
        by (field; lra).
      apply Rmult_le_compat_r; [lra |]. apply Rmult_le_compat_r; lra. }
  assert (SF2R d <= IZR (Zpos m2) * powerRZ 2 e1) as Uv.
  { apply Rmult_le_reg_r with (r := powerRZ 2 (P + 52)); [exact PS |].
    apply Rle_trans with (2 := Chi). rewrite <- US.
    apply Rle_trans with ((2 ^ 52 + 1) * (E * unit_R)).
    - replace (SF2R d * (unit_R * 2 ^ 52)) with ((SF2R d * 2 ^ 52) * unit_R) by ring.
      replace ((2 ^ 52 + 1) * (E * unit_R)) with (((E + E / 2 ^ 52) * 2 ^ 52) * unit_R)
        by (field; lra).
      apply Rmult_le_compat_r; [lra |]. apply Rmult_le_compat_r; lra.
    - apply Rmult_le_compat_l; [lra | exact EH']. }
  assert (0 < SF2R d) as Vpos by (assert (0 < IZR (Zpos m1) * powerRZ 2 e1)
                                     by (apply Rmult_lt_0_compat; assumption); lra).
  (* the shape of [d] *)
  destruct d as [s | s | | s m e]; cbn [SF2R] in Vpos, Lv, Uv; try lra.
  pose proof (powerRZ2_pos e) as Pe.
  destruct s.
  { exfalso. assert (IZR (Zneg m) < 0) by (apply IZR_lt; lia). nra. }
  destruct (valid_double_finite false m e V) as [He [Hm Hn]].
  assert (- (P + 52) = -308)%Z as HP by reflexivity.
  apply (dyadic_le_Z _ _ _ _ 1074) in Lv; [| lia | lia].
  apply (dyadic_le_Z _ _ _ _ 1074) in Uv; [| lia | lia].
  destruct (binade_sandwich (Zpos m1) (Zpos m2) (Zpos m) (e1 + 1074) (e + 1074))
    as [Eq [L1 L2]]; try lia.
  assert (e = e1) as -> by lia.
  unfold double_leb, SFleb. cbn [SFcompare]. rewrite Z.compare_refl.
  fold (Pos.compare m1 m). fold (Pos.compare m m2).
  split.
  - destruct (Pos.compare_spec m1 m); [reflexivity | reflexivity | lia].
  - destruct (Pos.compare_spec m m2); [reflexivity | reflexivity | lia].
Qed.

End Bridge.

Lemma on_later_indices (p : Z -> bool) :
  forallb p (indices 1024 1) = true -> forall k, 1 <= k <= STEPS -> p k = true.
Proof.
  intros H k Hk. rewrite forallb_forall in H. apply H.
  apply In_indices. unfold STEPS in Hk. lia.
Qed.

Lemma all_bridges_ok : forallb bridge_ok (indices 1024 1) = true.
Proof. vm_compute. reflexivity. Qed.

Lemma all_refs_ok : forallb ref_ok (indices 1024 1) = true.
Proof. vm_compute. reflexivity. Qed.

(** An [exp] with relative error at most 2^-52 on the samples meets the
    accuracy contract. *)
Theorem contract_accurate (exp : double -> double) :
  relative_error_contract exp -> accurate_on_samples exp.
Proof.
  intros [Z0 A] k Hk. unfold exp_within.
  destruct (Z.eq_dec k 0) as [-> | N].
  - rewrite sample_x_zero, Z0. reflexivity.
  - assert (1 <= k <= STEPS) as Hk1 by lia.
    destruct (A k Hk1) as [V B].
    rewrite sample_x_value in B by exact Hk.
    apply andb_true_iff.
    apply (within_interval k _ _ (on_later_indices _ all_bridges_ok k Hk1) V
             (enclosure_sound k Hk) B).
Qed.

(** The reference [exp_ref] has relative error at most 2^-52 on the
    samples. *)
Theorem exp_ref_contract : relative_error_contract exp_ref.
Proof.
  split; [reflexivity |]. intros k Hk.
  pose proof (on_later_indices _ all_refs_ok k Hk) as C. unfold ref_ok in C.
  assert (0 <= k <= STEPS) as Hk0 by lia.
  rewrite sample_x_value by exact Hk0.
  destruct (enclosure_sound k Hk0) as [EL EH].
  destruct (exp_ref (sample_x k)) as [| | | [] m e]; try discriminate.
  set (lo := fst (enclosure k)) in *. set (hi := snd (enclosure k)) in *.
  rewrite !andb_true_iff in C. destruct C as [[[V Hc] Clo] Chi].
  split; [exact V |].
  apply Z.leb_le in Hc, Clo, Chi.
  assert (0 <= e + (P + 52)) as Hs by lia.
  apply IZR_le in Clo, Chi.
  rewrite dyadic_scale in Clo, Chi by exact Hs. rewrite mult_IZR in Clo, Chi.
  rewrite minus_IZR in Clo. rewrite plus_IZR in Chi.
  rewrite IZR_pow2_Z in Clo, Chi by lia.
  change (powerRZ 2 52) with (2 ^ 52)%R in Clo, Chi.
  rewrite <- unit_R_scale in Clo, Chi.
  pose proof unit_R_pos as U.
  assert (0 < 2 ^ 52)%R as T by (apply pow_lt; lra).
  assert (1 < 2 ^ 52)%R as T1 by (apply Rlt_pow_R1; [lra | lia]).
  set (E := Rtrigo_def.exp (- IZR k / 128)) in *.
  assert (0 < E)%R as Epos by apply exp_pos.
  assert (E * unit_R <= IZR hi)%R as EH'.
  { apply Rmult_le_reg_r with (r := (/ unit_R)%R); [now apply Rinv_0_lt_compat |].
    rewrite Rmult_assoc, Rinv_r, Rmult_1_r by lra. exact EH. }
  assert (IZR lo <= E * unit_R)%R as EL'.
  { apply Rmult_le_reg_r with (r := (/ unit_R)%R); [now apply Rinv_0_lt_compat |].
    rewrite Rmult_assoc, Rinv_r, Rmult_1_r by lra. exact EL. }
  cbn [SF2R]. set (v := (IZR (Zpos m) * powerRZ 2 e)%R) in *.
  set (t := (2 ^ 52)%R) in *.
  assert ((t - 1) * E <= v * t)%R as Lv.
  { apply Rmult_le_reg_r with (r := unit_R); [exact U |].
    apply Rle_trans with ((t - 1) * IZR hi)%R.
    - rewrite Rmult_assoc. apply Rmult_le_compat_l; [lra | exact EH'].
    - replace (v * t * unit_R)%R with (v * (unit_R * t))%R by ring. exact Clo. }
  assert (v * t <= (t + 1) * E)%R as Uv.
  { apply Rmult_le_reg_r with (r := unit_R); [exact U |].
    apply Rle_trans with ((t + 1) * IZR lo)%R.
    - replace (v * t * unit_R)%R with (v * (unit_R * t))%R by ring. exact Chi.
    - rewrite Rmult_assoc. apply Rmult_le_compat_l; [lra | exact EL']. }
  apply Rabs_le. split.
  - apply Rmult_le_reg_r with (r := t); [exact T |].
    replace (- (E / t) * t)%R with (- E)%R by (field; lra). lra.
  - apply Rmult_le_reg_r with (r := t); [exact T |].
    replace (E / t * t)%R with E by (field; lra). lra.
Qed.

(** ** Concrete runs *)

Lemma table_entry_bit_exact_witness :
  exists content line u x,
    fs (snd (main exp_ref LittleEndian 1025 world_ok)) FILE_NAME = Some content /\
    nth_error (split_lines content) (Z.to_nat 1024) = Some line /\
    parse_hex line = Some u /\
    0 <= u < 2 ^ 32 /\
    x = spec_x 1024 /\
    is_finite x = true /\
    valid_double x = true /\
    SF2R x = (- IZR 1024 / 128)%R /\
    b32_of_bits u = narrow_rne (exp_ref x) /\
    (exp_ref x <> S754_nan -> u = bits_of_b32 (narrow_rne (exp_ref x))).
Proof.
  apply (table_entry_bit_exact exp_ref LittleEndian 1025 world_ok 1024);
    [lia | reflexivity | lia].
Defined.

Lemma main_idempotent_witness :
  let w1 := snd (main exp_ref LittleEndian 1025 world_stale) in
  let w2 := snd (main exp_ref LittleEndian 1025 w1) in
  fst (main exp_ref LittleEndian 1025 world_stale) = Some 0 /\
  fst (main exp_ref LittleEndian 1025 w1) = Some 0 /\
  fs w1 FILE_NAME = Some (table_text exp_ref LittleEndian) /\
  fs w2 FILE_NAME = fs w1 FILE_NAME.
Proof.
  apply (main_idempotent exp_ref LittleEndian 1025 world_stale); [lia | reflexivity].
Defined.

Lemma open_failure_status_witness :
  let (status, w') := main exp_ref LittleEndian 1025 world_readonly in
  if writable world_readonly FILE_NAME then status = Some 0
  else
    status = Some 1 /\
    cerr w' = (cerr world_readonly ++ MSG_FAIL)%string /\
    MSG_FAIL = ("Failed to open output file." ++ endl_str)%string /\
    cout w' = cout world_readonly /\
    (forall p, fs w' p = fs world_readonly p) /\
    trace w' = trace world_readonly ++ [EvOpenFailed FILE_NAME; EvStderr MSG_FAIL].
Proof.
  apply (open_failure_status exp_ref LittleEndian 1025 world_readonly). lia.
Defined.

Lemma success_report_witness :
  let w' := snd (main exp_ref LittleEndian 1025 world_ok) in
  trace w' =
    trace world_ok ++ [EvOpen FILE_NAME; EvWrite FILE_NAME (table_text exp_ref LittleEndian);
                       EvClose FILE_NAME; EvStdout MSG_DONE] /\
  List.length (split_lines (table_text exp_ref LittleEndian)) = 1025%nat /\
  cout w' = (cout world_ok ++ MSG_DONE)%string /\
  cerr w' = cerr world_ok /\
  MSG_DONE = ("Generated " ++ FILE_NAME ++ " with 1025 entries." ++ endl_str)%string /\
  split_lines MSG_DONE = ["Generated exp_lut_1over128.hex with 1025 entries."%string].
Proof.
  apply (success_report exp_ref LittleEndian 1025 world_ok); [lia | reflexivity].
Defined.

(** * Further properties of [float_to_u32], of the narrowing and of [main] *)

(** X1: [float_to_u32] returns the same word on a little-endian and on a
    big-endian machine, whatever bytes the uninitialised [u] held, for
    every value (also a malformed one). *)
Theorem float_to_u32_any_byte_order (bo bo' : byte_order) (u0 : list Z) (v : float) :
  List.length u0 = 4%nat ->
  float_to_u32_from bo u0 v = float_to_u32 bo' v.
Proof.
  intros L. unfold float_to_u32.
  rewrite !float_to_u32_from_bits by (try exact L; reflexivity). reflexivity.
Qed.

Lemma float_to_u32_any_byte_order_witness :
  float_to_u32_from BigEndian [255; 254; 253; 252] S754_nan = float_to_u32 LittleEndian S754_nan.
Proof. apply (float_to_u32_any_byte_order BigEndian LittleEndian); reflexivity. Defined.

(** X2: [float_to_u32] is injective: two values of the format with the
    same word are the same value. *)
Theorem float_to_u32_injective (bo bo' : byte_order) (a b : float) :
  valid_float a = true -> valid_float b = true ->
  float_to_u32 bo a = float_to_u32 bo' b -> a = b.
Proof.
  intros Va Vb E.
  rewrite !float_to_u32_bits in E by assumption.
  rewrite <- (b32_of_bits_of_b32 a Va), <- (b32_of_bits_of_b32 b Vb). now rewrite E.
Qed.

Lemma float_to_u32_injective_witness :
  S754_zero true = b32_of_bits 0x80000000.
Proof.
  apply (float_to_u32_injective LittleEndian BigEndian (S754_zero true) (b32_of_bits 0x80000000));
    reflexivity.
Defined.

(** X3: every 32-bit word that is not a NaN pattern is the word of a
    value of the format, the one it decodes to. *)
Theorem every_word_is_a_float (bo : byte_order) (u : Z) :
  0 <= u < 2 ^ 32 -> is_nan_bits32 u = false ->
  valid_float (b32_of_bits u) = true /\ float_to_u32 bo (b32_of_bits u) = u.
Proof.
  intros Hu Hn. destruct (bits_of_b32_of_bits u Hu Hn) as [V E].
  split; [exact V |]. rewrite float_to_u32_bits by exact V. exact E.
Qed.

Lemma every_word_is_a_float_witness :
  valid_float (b32_of_bits 0x39afe108) = true /\
  float_to_u32 BigEndian (b32_of_bits 0x39afe108) = 0x39afe108.
Proof.
  apply (every_word_is_a_float BigEndian 0x39afe108); [vm_compute; split; congruence | reflexivity].
Defined.

(** The word of a valid positive finite value. *)
Lemma bits_of_pos_finite (m : positive) (e : Z) :
  valid_float (S754_finite false m e) = true ->
  bits_of_b32 (S754_finite false m e) = (e + 149) * 2 ^ 23 + Zpos m /\
  -149 <= e <= 104 /\ Zpos m < 2 ^ 24 /\ (2 ^ 23 <= Zpos m \/ e = -149).
Proof.
  intros V. cbn [bits_of_b32]. unfold join_bits32. cbn [Z.b2z].
  change (2 ^ 24) with 16777216. change (2 ^ 23) with 8388608 in *. change (2 ^ 8) with 256.
  destruct (valid_float_finite false m e V) as [[Hm He] | [Hm He]];
    change (2 ^ 24) with 16777216 in *; change (2 ^ 23) with 8388608 in *.
  - replace (8388608 <=? Zpos m) with true by (symmetry; apply Z.leb_le; lia). lia.
  - replace (8388608 <=? Zpos m) with false by (symmetry; apply Z.leb_gt; lia). lia.
Qed.

(** X4: on +0, the positive finite values and +infinity,
    [float_to_u32] preserves the order: a < b as floats exactly when the
    word of a is below the word of b as an unsigned integer. *)
Theorem float_to_u32_monotone (bo : byte_order) (a b : float) :
  valid_float a = true -> valid_float b = true ->
  is_nonneg a = true -> is_nonneg b = true ->
  (float_ltb a b = true <-> float_to_u32 bo a < float_to_u32 bo b).
Proof.
  intros Va Vb Na Nb. rewrite !float_to_u32_bits by assumption.
  unfold float_ltb, SFltb.
  destruct a as [[] | [] | | [] ma ea]; try discriminate;
    destruct b as [[] | [] | | [] mb eb]; try discriminate; cbn [SFcompare];
    try (destruct (bits_of_pos_finite ma ea Va) as [-> [Ea [Ma Sa]]]);
    try (destruct (bits_of_pos_finite mb eb Vb) as [-> [Eb [Mb Sb]]]);
    cbn [bits_of_b32]; unfold join_bits32; cbn [Z.b2z];
    change (2 ^ 24) with 16777216 in *; change (2 ^ 23) with 8388608 in *;
    change (2 ^ 8) with 256;
    try (split; [discriminate | lia]);
    try (split; [lia | reflexivity]);
    try (split; [intros _; lia | reflexivity]).
  destruct (Z.compare_spec ea eb) as [E | L | G].
  - subst eb. fold (Pos.compare ma mb).
    destruct (Pos.compare_spec ma mb); split; try discriminate; try reflexivity; lia.
  - split; [intros _; lia | reflexivity].
  - split; [discriminate | lia].
Qed.

Lemma float_to_u32_monotone_witness :
  float_ltb (S754_finite false 1 (-149)) (S754_infinity false) = true <->
  float_to_u32 LittleEndian (S754_finite false 1 (-149)) < float_to_u32 LittleEndian (S754_infinity false).
Proof.
  apply (float_to_u32_monotone LittleEndian (S754_finite false 1 (-149)) (S754_infinity false));
    reflexivity.
Defined.

(** X11: the text of any value of the format, printed as the loop body
    prints a table entry, is 8 lower-case hexadecimal digits that parse
    back to a word decoding to the value. *)
Theorem float_text_round_trip (bo : byte_order) (v : float) :
  valid_float v = true ->
  let line := hex8 (float_to_u32 bo v) in
  String.length line = 8%nat /\
  string_forallb is_lower_hex line = true /\
  exists u, parse_hex line = Some u /\ b32_of_bits u = v.
Proof.
  intros V. cbv zeta.
  destruct (hex8_spec (float_to_u32 bo v) (float_to_u32_range bo v)) as [L [F Pr]].
  split; [exact L |]. split; [exact F |].
  exists (float_to_u32 bo v). split; [exact Pr |].
  rewrite float_to_u32_bits by exact V. now apply b32_of_bits_of_b32.
Qed.

Lemma float_text_round_trip_witness :
  exists u, parse_hex (hex8 (float_to_u32 BigEndian (S754_infinity true))) = Some u /\
            b32_of_bits u = S754_infinity true.
Proof.
  apply (float_text_round_trip BigEndian (S754_infinity true)). reflexivity.
Defined.

Section MoreRuns.
Variable exp : double -> double.
Variable bo : byte_order.

Lemma fs_set_other (f : string -> option string) (p q c : string) :
  q <> p -> fs_set f p c q = f q.
Proof.
  intros N. unfold fs_set. destruct (String.eqb_spec q p) as [E | _]; [contradiction | reflexivity].
Qed.

Lemma loop_body_path (k : Z) (ofs : ofstream) :
  o_path (loop_body exp bo k ofs) = o_path ofs.
Proof.
  unfold loop_body, put_str, put_u32, put_setw, insert.
  cbn [o_fail o_path]. destruct (o_fail ofs); cbn [o_fail o_path]; reflexivity.
Qed.

Lemma main_loop_path (fuel : nat) :
  forall (k : Z) (ofs ofs' : ofstream),
    main_loop exp bo fuel k ofs = Some ofs' -> o_path ofs' = o_path ofs.
Proof.
  induction fuel as [| fuel IH]; intros k ofs ofs'; cbn [main_loop];
    destruct (k <=? STEPS); try discriminate; try (intros [= <-]; reflexivity).
  intros H. rewrite (IH _ _ _ H). apply loop_body_path.
Qed.

(** X5: a run, successful or not and with any fuel, changes no file
    other than the table file and changes no permission. *)
Theorem main_touches_one_file (fuel : nat) (w : World) (p : string) :
  p <> FILE_NAME ->
  fs (snd (main exp bo fuel w)) p = fs w p /\
  (forall q, writable (snd (main exp bo fuel w)) q = writable w q).
Proof.
  intros N. unfold main, bind, ofstream_ctor.
  destruct (writable w FILE_NAME) eqn:Hw; cbn [ofstream_not o_fail].
  - destruct (main_loop exp bo fuel 0 _) as [ofs |] eqn:El.
    + apply main_loop_path in El. cbn [put_setfill put_hex o_path] in El.
      unfold ofstream_close, cout_put, ret. rewrite El.
      destruct (o_open ofs); cbn [fst snd fs writable];
        rewrite ?fs_set_other by exact N; split; reflexivity.
    + unfold ret. cbn [snd fs writable]. rewrite fs_set_other by exact N. split; reflexivity.
  - unfold cerr_put, ret. cbn [snd fs writable]. split; reflexivity.
Qed.

Lemma unlines_length (ls : list string) :
  Forall (fun l => String.length l = 8%nat) ls ->
  String.length (unlines ls) = (9 * List.length ls)%nat.
Proof.
  induction 1 as [| l ls Hl _ IH]; [reflexivity |].
  cbn [unlines List.length]. rewrite !string_length_app, Hl, IH.
  cbn [endl_str String.length]. lia.
Qed.

(** X6: after a successful run the table file holds exactly 9225
    characters (1025 lines of 8 digits and a terminator). *)
Theorem table_file_size (fuel : nat) (w : World) :
  (1025 <= fuel)%nat -> writable w FILE_NAME = true ->
  exists content,
    fs (snd (main exp bo fuel w)) FILE_NAME = Some content /\
    String.length content = FILE_SIZE.
Proof.
  intros Hf Hw. rewrite main_success by assumption. cbn [snd].
  exists (table_text exp bo). rewrite fs_after_success, String.eqb_refl.
  split; [reflexivity |]. unfold table_text.
  rewrite unlines_length.
  - rewrite table_lines_length. reflexivity.
  - unfold table_lines. apply Forall_map, Forall_forall. intros k _.
    apply hex8_spec, sample_u_range.
Qed.

End MoreRuns.

Lemma main_touches_one_file_witness :
  fs (snd (main exp_ref LittleEndian 1025 world_notes)) "notes.txt" = Some "keep"%string.
Proof.
  apply (main_touches_one_file exp_ref LittleEndian 1025 world_notes "notes.txt"%string).
  discriminate.
Defined.

Lemma table_file_size_witness :
  exists content,
    fs (snd (main exp_ref BigEndian 1025 world_stale)) FILE_NAME = Some content /\
    String.length content = FILE_SIZE.
Proof.
  apply (table_file_size exp_ref BigEndian 1025 world_stale); [lia | reflexivity].
Defined.

(** The program's output does not depend on the byte order. *)
Lemma sample_u_any_byte_order (exp : double -> double) (bo bo' : byte_order) (k : Z) :
  sample_u exp bo k = sample_u exp bo' k.
Proof.
  unfold sample_u, float_to_u32.
  rewrite !float_to_u32_from_bits by reflexivity. reflexivity.
Qed.

Lemma main_loop_any_byte_order (exp : double -> double) (bo bo' : byte_order) (fuel : nat) :
  forall k ofs, main_loop exp bo fuel k ofs = main_loop exp bo' fuel k ofs.
Proof.
  induction fuel as [| fuel IH]; intros k ofs; cbn [main_loop]; [reflexivity |].
  destruct (k <=? STEPS); [| reflexivity].
  rewrite IH. f_equal. unfold loop_body.
  fold (sample_y exp k). fold (sample_u exp bo k). fold (sample_u exp bo' k).
  now rewrite (sample_u_any_byte_order exp bo bo').
Qed.

(** X7: a run gives the same exit status, files, console output and
    trace on a little-endian and on a big-endian machine. *)
Theorem main_any_byte_order (exp : double -> double) (bo bo' : byte_order)
    (fuel : nat) (w : World) :
  main exp bo fuel w = main exp bo' fuel w.
Proof.
  unfold main, bind. destruct (ofstream_ctor FILE_NAME w) as [ofs w1].
  destruct (ofstream_not ofs); [reflexivity |].
  now rewrite (main_loop_any_byte_order exp bo bo').
Qed.

Lemma indices_range (n : nat) :
  forall k0 k, In k (indices n k0) -> k0 <= k < k0 + Z.of_nat n.
Proof.
  induction n as [| n IH]; intros k0 k; cbn [indices In]; [contradiction |].
  intros [<- | H]; [lia |]. apply IH in H. lia.
Qed.

(** X8: two hosts whose [exp] both meet the accuracy contract, of
    either byte order, produce the same exit status and the same world,
    hence the same table file, byte for byte. *)
Theorem accurate_exps_agree (exp1 exp2 : double -> double) (bo1 bo2 : byte_order)
    (fuel : nat) (w : World) :
  accurate_on_samples exp1 -> accurate_on_samples exp2 -> (1025 <= fuel)%nat ->
  main exp1 bo1 fuel w = main exp2 bo2 fuel w.
Proof.
  intros A1 A2 Hf. destruct (writable w FILE_NAME) eqn:Hw.
  - rewrite !main_success by assumption. f_equal.
    assert (table_text exp1 bo1 = table_text exp2 bo2) as E.
    { unfold table_text, table_lines. f_equal. apply map_ext_in. intros k Hk.
      apply indices_range in Hk.
      rewrite (sample_u_determined exp1 A1 bo1), (sample_u_determined exp2 A2 bo2)
        by (unfold STEPS; lia).
      reflexivity. }
    unfold world_done. now rewrite E.
  - rewrite !main_failure by assumption. reflexivity.
Qed.

Lemma exp_alt_accurate : accurate_on_samples exp_alt.
Proof. unfold accurate_on_samples. apply on_all_indices. vm_compute. reflexivity. Qed.

Lemma accurate_exps_agree_witness :
  SF_same (exp_ref (sample_x 1)) (exp_alt (sample_x 1)) = false /\
  main exp_ref LittleEndian 1025 world_ok = main exp_alt BigEndian 1025 world_ok.
Proof.
  split; [reflexivity |].
  apply (accurate_exps_agree exp_ref exp_alt LittleEndian BigEndian 1025 world_ok
           exp_ref_accurate exp_alt_accurate). lia.
Defined.

(** The result of rounding keeps the sign of what is rounded. *)
Lemma binary_round_aux_sign (s : bool) (m e : Z) (l : location) :
  0 < m -> e <= fexp prec32 emax32 (Zdigits2 m + e) ->
  sign_of (binary_round_aux prec32 emax32 s m e l) = Some s.
Proof.
  intros Hm He. unfold binary_round_aux.
  destruct (first_shift m e l Hm He) as [r1 [e1 [E1 [Hlo C1]]]]. rewrite E1.
  destruct (round_keeps_canonical (shr_m r1) e1 (loc_of_shr_record r1) Hlo C1) as [Hnn C2].
  destruct (second_shift _ e1 Hnn Hlo C2) as [r2 [e2 [E2 C3]]]. rewrite E2.
  destruct C3 as [Z0 | [Hp C]].
  - rewrite Z0. reflexivity.
  - destruct (shr_m r2) as [| p | p]; try lia.
    destruct (e2 <=? emax32 - prec32); reflexivity.
Qed.

(** X10: narrowing a double to float always gives a value of the
    binary32 format with the sign of the double, and gives NaN only for
    NaN. *)
Theorem narrowing_keeps_class (d : double) :
  valid_float (float_of_double d) = true /\
  sign_of (float_of_double d) = sign_of d /\
  (float_of_double d = S754_nan <-> d = S754_nan).
Proof.
  split; [apply float_of_double_valid |].
  assert (sign_of (float_of_double d) = sign_of d) as S.
  { destruct d as [s | s | | s m e]; try reflexivity.
    cbn [float_of_double sign_of]. unfold binary_round.
    pose proof (shl_align_spec m e) as H.
    destruct (shl_align m e (fexp prec32 emax32 (Zpos (digits2_pos m) + e))) as [mz ez].
    apply binary_round_aux_sign; [lia | exact H]. }
  split; [exact S |].
  split; intros E.
  - rewrite E in S. destruct d; try discriminate. reflexivity.
  - subst d. reflexivity.
Qed.

Section TableAccuracy.

Local Open Scope R_scope.

Lemma unit_R_powerRZ : unit_R = powerRZ 2 P.
Proof. unfold unit_R. apply IZR_pow2_Z. discriminate. Qed.

Lemma all_lut_nearest : forallb lut_nearest all_indices = true.
Proof. vm_compute. reflexivity. Qed.

(** X9: with an accurate [exp], table entry k is a positive finite float
    within half a unit in its last place of the real number e^(-k/128),
    and within relative error 2^-24 of it. *)
Theorem table_entry_accuracy (exp : double -> double) (k : Z) :
  accurate_on_samples exp -> (0 <= k <= 1024)%Z ->
  exists m e,
    sample_y exp k = S754_finite false m e /\
    Rabs (SF2R (sample_y exp k) - Rtrigo_def.exp (- IZR k / 128)) <= powerRZ 2 e / 2 /\
    Rabs (SF2R (sample_y exp k) - Rtrigo_def.exp (- IZR k / 128))
      <= Rtrigo_def.exp (- IZR k / 128) / 2 ^ 24.
Proof.
  intros A Hk. rewrite (sample_y_determined exp A k Hk).
  pose proof (on_all_indices _ all_lut_nearest k Hk) as C. unfold lut_nearest in C.
  destruct (enclosure_sound k Hk) as [EL EH].
  destruct (lut_ref k) as [| | | [] m e]; try discriminate.
  exists m, e. split; [reflexivity |].
  set (lo := fst (enclosure k)) in *. set (hi := snd (enclosure k)) in *.
  rewrite !andb_true_iff in C. destruct C as [[[[Hc Hlo] Hhi] Clo] Chi].
  apply Z.leb_le in Hc, Hlo, Hhi, Clo, Chi.
  pose proof unit_R_pos as U.
  set (E := Rtrigo_def.exp (- IZR k / 128)) in *.
  assert (0 < E) as Epos by apply exp_pos.
  assert (E * unit_R <= IZR hi) as EH'.
  { apply Rmult_le_reg_r with (r := / unit_R); [now apply Rinv_0_lt_compat |].
    rewrite Rmult_assoc, Rinv_r, Rmult_1_r by lra. exact EH. }
  assert (IZR lo <= E * unit_R) as EL'.
  { apply Rmult_le_reg_r with (r := / unit_R); [now apply Rinv_0_lt_compat |].
    rewrite Rmult_assoc, Rinv_r, Rmult_1_r by lra. exact EL. }
  cbn [SF2R]. set (v := IZR (Zpos m) * powerRZ 2 e) in *.
  pose proof (powerRZ2_pos e) as Pe. set (h := powerRZ 2 e) in *.
  split.
  - (* half a unit in the last place *)
    apply IZR_le in Hlo, Hhi.
    rewrite dyadic_scale in Hlo, Hhi by lia. rewrite mult_IZR in Hlo, Hhi.
    rewrite minus_IZR, mult_IZR in Hlo. rewrite plus_IZR, mult_IZR in Hhi.
    rewrite <- unit_R_powerRZ in Hlo, Hhi. fold h in Hlo, Hhi.
    assert (2 * v - h <= 2 * E) as L1.
    { apply Rmult_le_reg_r with (r := unit_R); [exact U |].
      apply Rle_trans with (2 * IZR lo); [| lra].
      replace ((2 * v - h) * unit_R) with ((2 * IZR (Zpos m) - 1) * h * unit_R)
        by (unfold v; ring).
      exact Hlo. }
    assert (2 * E <= 2 * v + h) as L2.
    { apply Rmult_le_reg_r with (r := unit_R); [exact U |].
      apply Rle_trans with (2 * IZR hi); [lra |].
      replace ((2 * v + h) * unit_R) with ((2 * IZR (Zpos m) + 1) * h * unit_R)
        by (unfold v; ring).
      exact Hhi. }
    apply Rabs_le. lra.
  - (* relative error *)
    assert (0 <= e + (P + 24))%Z as Hs by lia.
    apply IZR_le in Clo, Chi.
    rewrite dyadic_scale in Clo, Chi by exact Hs. rewrite mult_IZR in Clo, Chi.
    rewrite minus_IZR in Clo. rewrite plus_IZR in Chi.
    rewrite IZR_pow2_Z in Clo, Chi by lia.
    change (powerRZ 2 24) with (2 ^ 24) in Clo, Chi.
    rewrite powerRZ_add in Clo, Chi by lra.
    rewrite <- unit_R_powerRZ in Clo, Chi.
    change (powerRZ 2 24) with (2 ^ 24) in Clo, Chi.
    fold h in Clo, Chi. fold v in Clo, Chi.
    assert (0 < 2 ^ 24) as T by (apply pow_lt; lra).
    assert (1 < 2 ^ 24) as T1 by (apply Rlt_pow_R1; [lra | lia]).
    set (t := 2 ^ 24) in *.
    assert ((t - 1) * E <= v * t) as Lv.
    { apply Rmult_le_reg_r with (r := unit_R); [exact U |].
      apply Rle_trans with ((t - 1) * IZR hi).
      - rewrite Rmult_assoc. apply Rmult_le_compat_l; [lra | exact EH'].
      - replace (v * t * unit_R) with (v * (unit_R * t)) by ring. exact Clo. }
    assert (v * t <= (t + 1) * E) as Uv.
    { apply Rmult_le_reg_r with (r := unit_R); [exact U |].
      apply Rle_trans with ((t + 1) * IZR lo).
      - replace (v * t * unit_R) with (v * (unit_R * t)) by ring. exact Chi.
      - rewrite Rmult_assoc. apply Rmult_le_compat_l; [lra | exact EL']. }
    apply Rabs_le. split.
    + apply Rmult_le_reg_r with (r := t); [exact T |].
      replace (- (E / t) * t) with (- E) by (field; lra). lra.
    + apply Rmult_le_reg_r with (r := t); [exact T |].
      replace (E / t * t) with E by (field; lra). lra.
Qed.

End TableAccuracy.

Lemma table_entry_accuracy_witness :
  exists m e,
    sample_y exp_ref 1024 = S754_finite false m e /\
    (Rabs (SF2R (sample_y exp_ref 1024) - Rtrigo_def.exp (- IZR 1024 / 128)) <= powerRZ 2 e / 2)%R /\
    (Rabs (SF2R (sample_y exp_ref 1024) - Rtrigo_def.exp (- IZR 1024 / 128))
      <= Rtrigo_def.exp (- IZR 1024 / 128) / 2 ^ 24)%R.
Proof.
  apply (table_entry_accuracy exp_ref 1024 exp_ref_accurate). lia.
Defined.
